(** * Entity-ownership diagram: the state and graph-computation engine

    A shallow embedding of [DiagramService] (diagram.service.ts, the
    enterprise revision with [loadFlatEntityList]) and the properties of its
    store operations, ownership propagation, path tracing and sandbox.

    Conventions of the embedding:
    - a TypeScript object type is a record, an optional property an [option];
    - a JavaScript [number] is an IEEE 754 binary64 value ([float], the
      kernel's binary64): [+], [*] and [/] round as JavaScript's do, and
      [NaN], the infinities and the negative zero are values like the
      others.  A property declared [number] holds a [number]: a binary64
      value or [null], which [JSON.stringify] writes for [NaN] and the
      infinities and which therefore sits in the objects of a JSON copy;
    - an [unknown] / [any] payload is a [jsval] tree;
    - [Set<string>] is a [gset string];
    - a signal is a field of the [Store] record, [signal.set] / [signal.update]
      are record updates, and a method is a function from [Store] to [Store];
    - node objects are values.  The service mutates an object in two
      places: [addNode] assigns [dimension] on the object it is given, taken
      here to be the caller's own object and not one already stored (as in
      the application's only call, [addDraftNode]); and
      [calculateEffectiveOwnership] writes into the objects of its array,
      which is modelled as a list updated by position;
    - where identity matters, in the sandbox, the operations are embedded a
      second time on a heap of node objects ([RefStore]), [addNode] on a
      stored object included, and shown to agree with the embedding on
      values. *)

From Stdlib Require Import PrimFloat FloatClass.
From stdpp Require Import gmap strings list.
From Equations Require Import Equations.

Set Warnings "-inexact-float".

Local Open Scope string_scope.
Local Open Scope list_scope.

(** ** JavaScript values *)

(** Untyped values, as [JSON.parse] produces them, plus [undefined].  An
    object lists each of its keys once. *)
#[warnings="-register-all"] Inductive jsval : Type :=
| JUndefined
| JNull
| JBool (b : bool)
| JNum (x : float)
| JStr (s : string)
| JArr (items : list jsval)
| JObj (props : list (string * jsval)).

(** Property access [o.k]: [undefined] when the object has no such
    property. *)
Fixpoint get (k : string) (props : list (string * jsval)) : jsval :=
  match props with
  | [] => JUndefined
  | (k', v) :: rest => if String.eqb k k' then v else get k rest
  end.

(** What [JSON.parse (JSON.stringify x)] returns for a number [x]:
    [JSON.stringify] writes [null] for [NaN] and the infinities and [0] for
    the negative zero; any other number is written as the shortest decimal
    that reads back as the same binary64 value. *)
Definition JSON_float (x : float) : jsval :=
  match classify x with
  | NaN | PInf | NInf => JNull
  | NZero => JNum 0
  | _ => JNum x
  end.

(** What [JSON.parse (JSON.stringify v)] returns: a property whose value is
    [undefined] is dropped from an object, an [undefined] array item becomes
    [null], a number goes through [JSON_float], everything else is copied. *)
Fixpoint JSON_roundtrip (v : jsval) : jsval :=
  match v with
  | JNum x => JSON_float x
  | JArr items =>
      JArr (map (fun x => match x with
                          | JUndefined => JNull
                          | _ => JSON_roundtrip x
                          end) items)
  | JObj props =>
      JObj ((fix props_roundtrip (ps : list (string * jsval)) :=
               match ps with
               | [] => []
               | (k, x) :: rest =>
                   match x with
                   | JUndefined => props_roundtrip rest
                   | _ => (k, JSON_roundtrip x) :: props_roundtrip rest
                   end
               end) props)
  | _ => v
  end.

(** Truthiness of a string ([if (s)], [s || d]): only the empty string is
    falsy. *)
Definition truthy (s : string) : bool := negb (String.eqb s "").

(** [s || d] on strings. *)
Definition str_or (s d : string) : string := if truthy s then s else d.

(** The value of a property declared [number]: a binary64 value, or the
    [null] of a JSON copy. *)
Inductive number :=
| Num (x : float)
| Null.

(** [x || 0] on a number: [0] when [x] is falsy, that is [NaN] or one of
    the zeros, and [x] otherwise. *)
Definition or_0 (x : float) : float :=
  match classify x with
  | NaN | PZero | NZero => 0%float
  | _ => x
  end.

(** [x || 0] on an optional number property: [undefined] and [null] give
    [0] as well. *)
Definition num_or_0 (x : option number) : float :=
  match x with
  | Some (Num q) => or_0 q
  | Some Null => 0%float
  | None => 0%float
  end.

(** ** The data model: [DiagramNode], [DiagramEdge] *)

Inductive Status := Active | Liquidation | Acquisition.

Inductive PillarTwoStatus := InScope | Excluded | SafeHarbor | Pending | NotApplicable.

(** [dimension: { width, height }], the layout box of ngx-graph's [Node]. *)
Record Dimension := { width : number; height : number }.

(** [DiagramNode = z.infer<typeof NodeSchema> & Node].  The first sixteen
    fields are those of [NodeSchema], in its order.  [dimension] is the one
    field of ngx-graph's [Node] that the service writes; [parentId] and
    [ownershipPercentage] are the properties of a flat entity that the spread
    in [loadFlatEntityList] copies into the node. *)
Record DiagramNode := {
  id : string;
  label : string;
  color : option string;
  entityType : option string;
  jurisdiction : option string;
  taxId : option string;
  officers : option (list string);
  filingDueDate : option string;
  isDraft : option bool;
  taxResidency : option string;
  localCurrency : option string;
  citRate : option number;
  effectiveOwnership : option number;
  status : option Status;
  region : option string;
  pillarTwoStatus : option PillarTwoStatus;
  dimension : option Dimension;
  parentId : option string;
  ownershipPercentage : option number
}.

(** [DiagramEdge = z.infer<typeof EdgeSchema> & Edge]. *)
Record DiagramEdge := {
  edge_id : string;
  source : string;
  target : string;
  edge_label : option string;
  edge_ownershipPercentage : option number;
  edge_isDraft : option bool
}.

(** [Partial<DiagramNode>], the second argument of [updateNode]: [None] is a
    property the partial object does not have, [Some v] one it has.  For an
    optional field the value may itself be [undefined] ([Some None]). *)
Record PartialNode := {
  p_id : option string;
  p_label : option string;
  p_color : option (option string);
  p_entityType : option (option string);
  p_jurisdiction : option (option string);
  p_taxId : option (option string);
  p_officers : option (option (list string));
  p_filingDueDate : option (option string);
  p_isDraft : option (option bool);
  p_taxResidency : option (option string);
  p_localCurrency : option (option string);
  p_citRate : option (option number);
  p_effectiveOwnership : option (option number);
  p_status : option (option Status);
  p_region : option (option string);
  p_pillarTwoStatus : option (option PillarTwoStatus);
  p_dimension : option (option Dimension);
  p_parentId : option (option string);
  p_ownershipPercentage : option (option number)
}.

(** [o.dimension = d]. *)
Definition set_dimension (d : Dimension) (n : DiagramNode) : DiagramNode :=
  {| id := id n; label := label n; color := color n;
     entityType := entityType n; jurisdiction := jurisdiction n;
     taxId := taxId n; officers := officers n;
     filingDueDate := filingDueDate n; isDraft := isDraft n;
     taxResidency := taxResidency n; localCurrency := localCurrency n;
     citRate := citRate n; effectiveOwnership := effectiveOwnership n;
     status := status n; region := region n;
     pillarTwoStatus := pillarTwoStatus n;
     dimension := Some d;
     parentId := parentId n; ownershipPercentage := ownershipPercentage n |}.

(** [{ ...o, label: l }]. *)
Definition set_label (l : string) (n : DiagramNode) : DiagramNode :=
  {| id := id n; label := l; color := color n;
     entityType := entityType n; jurisdiction := jurisdiction n;
     taxId := taxId n; officers := officers n;
     filingDueDate := filingDueDate n; isDraft := isDraft n;
     taxResidency := taxResidency n; localCurrency := localCurrency n;
     citRate := citRate n; effectiveOwnership := effectiveOwnership n;
     status := status n; region := region n;
     pillarTwoStatus := pillarTwoStatus n;
     dimension := dimension n;
     parentId := parentId n; ownershipPercentage := ownershipPercentage n |}.

(** [o.effectiveOwnership = q]. *)
Definition set_effectiveOwnership (q : float) (n : DiagramNode) : DiagramNode :=
  {| id := id n; label := label n; color := color n;
     entityType := entityType n; jurisdiction := jurisdiction n;
     taxId := taxId n; officers := officers n;
     filingDueDate := filingDueDate n; isDraft := isDraft n;
     taxResidency := taxResidency n; localCurrency := localCurrency n;
     citRate := citRate n; effectiveOwnership := Some (Num q);
     status := status n; region := region n;
     pillarTwoStatus := pillarTwoStatus n;
     dimension := dimension n;
     parentId := parentId n; ownershipPercentage := ownershipPercentage n |}.

(** [{ ...o, isDraft: false }] on a node and on an edge. *)
Definition clear_draft (n : DiagramNode) : DiagramNode :=
  {| id := id n; label := label n; color := color n;
     entityType := entityType n; jurisdiction := jurisdiction n;
     taxId := taxId n; officers := officers n;
     filingDueDate := filingDueDate n; isDraft := Some false;
     taxResidency := taxResidency n; localCurrency := localCurrency n;
     citRate := citRate n; effectiveOwnership := effectiveOwnership n;
     status := status n; region := region n;
     pillarTwoStatus := pillarTwoStatus n;
     dimension := dimension n;
     parentId := parentId n; ownershipPercentage := ownershipPercentage n |}.

Definition clear_edge_draft (e : DiagramEdge) : DiagramEdge :=
  {| edge_id := edge_id e; source := source e; target := target e;
     edge_label := edge_label e;
     edge_ownershipPercentage := edge_ownershipPercentage e;
     edge_isDraft := Some false |}.

(** One property of [{ ...n, ...partial }]: the partial object's value when
    it has the property, the node's otherwise. *)
Definition over {A} (mine : A) (theirs : option A) : A :=
  match theirs with Some v => v | None => mine end.

(** [{ ...n, ...partial }]. *)
Definition spread (n : DiagramNode) (p : PartialNode) : DiagramNode :=
  {| id := over (id n) (p_id p);
     label := over (label n) (p_label p);
     color := over (color n) (p_color p);
     entityType := over (entityType n) (p_entityType p);
     jurisdiction := over (jurisdiction n) (p_jurisdiction p);
     taxId := over (taxId n) (p_taxId p);
     officers := over (officers n) (p_officers p);
     filingDueDate := over (filingDueDate n) (p_filingDueDate p);
     isDraft := over (isDraft n) (p_isDraft p);
     taxResidency := over (taxResidency n) (p_taxResidency p);
     localCurrency := over (localCurrency n) (p_localCurrency p);
     citRate := over (citRate n) (p_citRate p);
     effectiveOwnership := over (effectiveOwnership n) (p_effectiveOwnership p);
     status := over (status n) (p_status p);
     region := over (region n) (p_region p);
     pillarTwoStatus := over (pillarTwoStatus n) (p_pillarTwoStatus p);
     dimension := over (dimension n) (p_dimension p);
     parentId := over (parentId n) (p_parentId p);
     ownershipPercentage := over (ownershipPercentage n) (p_ownershipPercentage p) |}.

(** ** Typed objects seen as untyped values, and back *)

Definition string_of_Status (x : Status) : string :=
  match x with
  | Active => "Active"
  | Liquidation => "Liquidation"
  | Acquisition => "Acquisition"
  end.

Definition string_of_PillarTwoStatus (x : PillarTwoStatus) : string :=
  match x with
  | InScope => "In-Scope"
  | Excluded => "Excluded"
  | SafeHarbor => "Safe-Harbor"
  | Pending => "Pending"
  | NotApplicable => "N/A"
  end.

Definition Status_of_string (s : string) : option Status :=
  if String.eqb s "Active" then Some Active
  else if String.eqb s "Liquidation" then Some Liquidation
  else if String.eqb s "Acquisition" then Some Acquisition
  else None.

Definition PillarTwoStatus_of_string (s : string) : option PillarTwoStatus :=
  if String.eqb s "In-Scope" then Some InScope
  else if String.eqb s "Excluded" then Some Excluded
  else if String.eqb s "Safe-Harbor" then Some SafeHarbor
  else if String.eqb s "Pending" then Some Pending
  else if String.eqb s "N/A" then Some NotApplicable
  else None.

(** An optional property as a value: [undefined] when absent. *)
Definition js_opt {A} (f : A -> jsval) (x : option A) : jsval :=
  match x with Some a => f a | None => JUndefined end.

Definition js_of_strings (l : list string) : jsval := JArr (map JStr l).

Definition js_of_number (x : number) : jsval :=
  match x with
  | Num q => JNum q
  | Null => JNull
  end.

Definition js_of_Dimension (d : Dimension) : jsval :=
  JObj [("width", js_of_number (width d)); ("height", js_of_number (height d))].

(** A node object with all its own properties. *)
Definition js_of_node (n : DiagramNode) : jsval :=
  JObj [("id", JStr (id n));
        ("label", JStr (label n));
        ("color", js_opt JStr (color n));
        ("entityType", js_opt JStr (entityType n));
        ("jurisdiction", js_opt JStr (jurisdiction n));
        ("taxId", js_opt JStr (taxId n));
        ("officers", js_opt js_of_strings (officers n));
        ("filingDueDate", js_opt JStr (filingDueDate n));
        ("isDraft", js_opt JBool (isDraft n));
        ("taxResidency", js_opt JStr (taxResidency n));
        ("localCurrency", js_opt JStr (localCurrency n));
        ("citRate", js_opt js_of_number (citRate n));
        ("effectiveOwnership", js_opt js_of_number (effectiveOwnership n));
        ("status", js_opt (fun x => JStr (string_of_Status x)) (status n));
        ("region", js_opt JStr (region n));
        ("pillarTwoStatus",
          js_opt (fun x => JStr (string_of_PillarTwoStatus x)) (pillarTwoStatus n));
        ("dimension", js_opt js_of_Dimension (dimension n));
        ("parentId", js_opt JStr (parentId n));
        ("ownershipPercentage", js_opt js_of_number (ownershipPercentage n))].

Definition js_of_edge (e : DiagramEdge) : jsval :=
  JObj [("id", JStr (edge_id e));
        ("source", JStr (source e));
        ("target", JStr (target e));
        ("label", js_opt JStr (edge_label e));
        ("ownershipPercentage", js_opt js_of_number (edge_ownershipPercentage e));
        ("isDraft", js_opt JBool (edge_isDraft e))].

(** Reading an untyped value at a TypeScript type (the unchecked cast from
    [any] that follows [JSON.parse]).  A number property reads [null] as
    [null].  A value of another shape reads as absent; that case does not
    arise on what [JSON.stringify] made of typed objects, see
    [node_of_js_roundtrip]. *)
Definition as_string (v : jsval) : option string :=
  match v with JStr s => Some s | _ => None end.

Definition as_number (v : jsval) : option number :=
  match v with
  | JNum q => Some (Num q)
  | JNull => Some Null
  | _ => None
  end.

Definition as_boolean (v : jsval) : option bool :=
  match v with JBool b => Some b | _ => None end.

Definition as_strings (v : jsval) : option (list string) :=
  match v with
  | JArr items => Some (omap as_string items)
  | _ => None
  end.

Definition as_Dimension (v : jsval) : option Dimension :=
  match v with
  | JObj o =>
      w ← as_number (get "width" o);
      h ← as_number (get "height" o);
      Some {| width := w; height := h |}
  | _ => None
  end.

Definition props_of (v : jsval) : list (string * jsval) :=
  match v with JObj o => o | _ => [] end.

Definition items_of (v : jsval) : list jsval :=
  match v with JArr l => l | _ => [] end.

Definition node_of_js (v : jsval) : DiagramNode :=
  let o := props_of v in
  {| id := default "" (as_string (get "id" o));
     label := default "" (as_string (get "label" o));
     color := as_string (get "color" o);
     entityType := as_string (get "entityType" o);
     jurisdiction := as_string (get "jurisdiction" o);
     taxId := as_string (get "taxId" o);
     officers := as_strings (get "officers" o);
     filingDueDate := as_string (get "filingDueDate" o);
     isDraft := as_boolean (get "isDraft" o);
     taxResidency := as_string (get "taxResidency" o);
     localCurrency := as_string (get "localCurrency" o);
     citRate := as_number (get "citRate" o);
     effectiveOwnership := as_number (get "effectiveOwnership" o);
     status := as_string (get "status" o) ≫= Status_of_string;
     region := as_string (get "region" o);
     pillarTwoStatus := as_string (get "pillarTwoStatus" o) ≫= PillarTwoStatus_of_string;
     dimension := as_Dimension (get "dimension" o);
     parentId := as_string (get "parentId" o);
     ownershipPercentage := as_number (get "ownershipPercentage" o) |}.

Definition edge_of_js (v : jsval) : DiagramEdge :=
  let o := props_of v in
  {| edge_id := default "" (as_string (get "id" o));
     source := default "" (as_string (get "source" o));
     target := default "" (as_string (get "target" o));
     edge_label := as_string (get "label" o);
     edge_ownershipPercentage := as_number (get "ownershipPercentage" o);
     edge_isDraft := as_boolean (get "isDraft" o) |}.

(** [JSON.parse(JSON.stringify(nodes))] and the same on edges: the deep copy
    that [startSandbox] takes. *)
Definition JSON_copy_nodes (ns : list DiagramNode) : list DiagramNode :=
  map node_of_js (items_of (JSON_roundtrip (JArr (map js_of_node ns)))).

Definition JSON_copy_edges (es : list DiagramEdge) : list DiagramEdge :=
  map edge_of_js (items_of (JSON_roundtrip (JArr (map js_of_edge es)))).

(** ** The Zod schemas

    Zod is a library of the application, not code of the repository; its
    combinators are modelled by what they accept, as in Zod 3 (the
    repository pins no version).  [z.object] accepts an object that is not
    an array and keeps the declared keys only (unknown keys are stripped);
    [.optional()] accepts an absent or [undefined] property and nothing else
    outside its inner type, so [null] is refused; [z.number()] refuses
    [NaN] and accepts every other number, the infinities included. *)

Definition z_string (v : jsval) : option string :=
  match v with JStr s => Some s | _ => None end.

Definition z_number (v : jsval) : option number :=
  match v with
  | JNum q =>
      match classify q with
      | NaN => None
      | _ => Some (Num q)
      end
  | _ => None
  end.

Definition z_boolean (v : jsval) : option bool :=
  match v with JBool b => Some b | _ => None end.

Definition z_array {A} (item : jsval -> option A) (v : jsval) : option (list A) :=
  match v with JArr items => mapM item items | _ => None end.

Definition z_enum {A} (of_string : string -> option A) (v : jsval) : option A :=
  match v with JStr s => of_string s | _ => None end.

Definition z_optional {A} (inner : jsval -> option A) (v : jsval) : option (option A) :=
  match v with
  | JUndefined => Some None
  | _ => Some <$> inner v
  end.

(** [NodeSchema.safeParse]: [Some] is [{ success: true, data }]. *)
Definition NodeSchema (v : jsval) : option DiagramNode :=
  match v with
  | JObj o =>
      id_ ← z_string (get "id" o);
      label_ ← z_string (get "label" o);
      color_ ← z_optional z_string (get "color" o);
      entityType_ ← z_optional z_string (get "entityType" o);
      jurisdiction_ ← z_optional z_string (get "jurisdiction" o);
      taxId_ ← z_optional z_string (get "taxId" o);
      officers_ ← z_optional (z_array z_string) (get "officers" o);
      filingDueDate_ ← z_optional z_string (get "filingDueDate" o);
      isDraft_ ← z_optional z_boolean (get "isDraft" o);
      taxResidency_ ← z_optional z_string (get "taxResidency" o);
      localCurrency_ ← z_optional z_string (get "localCurrency" o);
      citRate_ ← z_optional z_number (get "citRate" o);
      effectiveOwnership_ ← z_optional z_number (get "effectiveOwnership" o);
      status_ ← z_optional (z_enum Status_of_string) (get "status" o);
      region_ ← z_optional z_string (get "region" o);
      pillarTwoStatus_ ←
        z_optional (z_enum PillarTwoStatus_of_string) (get "pillarTwoStatus" o);
      Some {| id := id_; label := label_; color := color_;
              entityType := entityType_; jurisdiction := jurisdiction_;
              taxId := taxId_; officers := officers_;
              filingDueDate := filingDueDate_; isDraft := isDraft_;
              taxResidency := taxResidency_; localCurrency := localCurrency_;
              citRate := citRate_; effectiveOwnership := effectiveOwnership_;
              status := status_; region := region_;
              pillarTwoStatus := pillarTwoStatus_;
              dimension := None; parentId := None;
              ownershipPercentage := None |}
  | _ => None
  end.

(** [EdgeSchema.safeParse]. *)
Definition EdgeSchema (v : jsval) : option DiagramEdge :=
  match v with
  | JObj o =>
      id_ ← z_string (get "id" o);
      source_ ← z_string (get "source" o);
      target_ ← z_string (get "target" o);
      label_ ← z_optional z_string (get "label" o);
      ownershipPercentage_ ← z_optional z_number (get "ownershipPercentage" o);
      isDraft_ ← z_optional z_boolean (get "isDraft" o);
      Some {| edge_id := id_; source := source_; target := target_;
              edge_label := label_;
              edge_ownershipPercentage := ownershipPercentage_;
              edge_isDraft := isDraft_ |}
  | _ => None
  end.

(** [DiagramSchema.safeParse]. *)
Definition DiagramSchema (v : jsval) : option (list DiagramNode * list DiagramEdge) :=
  match v with
  | JObj o =>
      nodes_ ← z_array NodeSchema (get "nodes" o);
      edges_ ← z_array EdgeSchema (get "edges" o);
      Some (nodes_, edges_)
  | _ => None
  end.

(** ** The store *)

(** The signals and the private [originalState] of [DiagramService].  The
    view flags ([viewMode], [coloringMode], [dataOverlay], [activeFilters],
    the JSON drawer and capture signals) are written by none of the
    operations below and are left out. *)
Record Store := {
  nodes : list DiagramNode;
  edges : list DiagramEdge;
  selectedNodeId : option string;
  highlightedPath : gset string;
  sandboxMode : bool;
  originalState : option (list DiagramNode * list DiagramEdge)
}.

(** What a call of [loadDiagram] shows to the user. *)
Inductive LoadOutcome :=
| Loaded
| Rejected (alert : string).

(** [updateNode(id, partial)]. *)
Definition updateNode (id0 : string) (partial : PartialNode) (s : Store) : Store :=
  {| nodes := map (fun n => if String.eqb (id n) id0 then spread n partial else n)
                  (nodes s);
     edges := edges s;
     selectedNodeId := selectedNodeId s;
     highlightedPath := highlightedPath s;
     sandboxMode := sandboxMode s;
     originalState := originalState s |}.

(** [addNode(node)]: the assignment to [node.dimension], then the append. *)
Definition addNode (node : DiagramNode) (s : Store) : Store :=
  let node := set_dimension {| width := Num 200; height := Num 90 |} node in
  {| nodes := nodes s ++ [node];
     edges := edges s;
     selectedNodeId := selectedNodeId s;
     highlightedPath := highlightedPath s;
     sandboxMode := sandboxMode s;
     originalState := originalState s |}.

(** [removeNode(id)]. *)
Definition removeNode (id0 : string) (s : Store) : Store :=
  {| nodes := List.filter (fun n => negb (String.eqb (id n) id0)) (nodes s);
     edges := List.filter (fun e => negb (String.eqb (source e) id0)
                                    && negb (String.eqb (target e) id0))
                          (edges s);
     selectedNodeId :=
       match selectedNodeId s with
       | Some sel => if String.eqb sel id0 then None else Some sel
       | None => None
       end;
     highlightedPath := highlightedPath s;
     sandboxMode := sandboxMode s;
     originalState := originalState s |}.

(** [startSandbox()]. *)
Definition startSandbox (s : Store) : Store :=
  if sandboxMode s then s
  else
    {| nodes := nodes s;
       edges := edges s;
       selectedNodeId := selectedNodeId s;
       highlightedPath := highlightedPath s;
       sandboxMode := true;
       originalState := Some (JSON_copy_nodes (nodes s), JSON_copy_edges (edges s)) |}.

(** [commitSandbox()]. *)
Definition commitSandbox (s : Store) : Store :=
  if negb (sandboxMode s) then s
  else
    {| nodes := map clear_draft (nodes s);
       edges := map clear_edge_draft (edges s);
       selectedNodeId := selectedNodeId s;
       highlightedPath := highlightedPath s;
       sandboxMode := false;
       originalState := None |}.

(** [discardSandbox()]. *)
Definition discardSandbox (s : Store) : Store :=
  if negb (sandboxMode s) then s
  else
    match originalState s with
    | None => s
    | Some (ns, es) =>
        {| nodes := ns;
           edges := es;
           selectedNodeId := selectedNodeId s;
           highlightedPath := highlightedPath s;
           sandboxMode := false;
           originalState := None |}
    end.

(** [loadDiagram(json)].  The [catch] branch is not modelled: nothing in the
    [try] block throws on a value of the model. *)
Definition loadDiagram (json : jsval) (s : Store) : Store * LoadOutcome :=
  match DiagramSchema json with
  | None =>
      (s, Rejected "Invalid JSON format. Please check the console for details.")
  | Some (data_nodes, data_edges) =>
      ({| nodes := map (fun n => set_dimension {| width := Num 200; height := Num 90 |}
                                   (set_label (str_or (label n) (id n)) n))
                       data_nodes;
          edges := data_edges;
          selectedNodeId := None;
          highlightedPath := ∅;
          sandboxMode := sandboxMode s;
          originalState := originalState s |},
       Loaded)
  end.

(** [exportDiagram()]: the JSON document whose text the method returns.
    Printing it with two-space indentation and reading it back with
    [JSON.parse] give this document again. *)
Definition exportDiagram (s : Store) : jsval :=
  JSON_roundtrip
    (JObj [("nodes", JArr (map js_of_node (nodes s)));
           ("edges", JArr (map js_of_edge (edges s)))]).

(** ** The path tracer *)

(** [edges.filter(e => e.target === currentId)]. *)
Definition parentEdges (es : list DiagramEdge) (currentId : string) : list DiagramEdge :=
  List.filter (fun e => String.eqb (target e) currentId) es.

(** Edges whose target has not been visited: they bound the pushes still to
    come, which gives the loop its measure. *)
Definition pending (es : list DiagramEdge) (visited : gset string) : list DiagramEdge :=
  List.filter (fun e => negb (bool_decide (target e ∈ visited))) es.

Lemma pending_visit es visited c :
  c ∉ visited ->
  length (pending es ({[c]} ∪ visited)) + length (parentEdges es c)
  = length (pending es visited).
Proof.
  intros Hc. unfold pending, parentEdges.
  induction es as [|e es IH]; simpl; [reflexivity|].
  destruct (String.eqb_spec (target e) c) as [->|Hne].
  - rewrite (bool_decide_eq_true_2 (c ∈ {[c]} ∪ visited)) by set_solver.
    rewrite (bool_decide_eq_false_2 (c ∈ visited)) by exact Hc.
    simpl. lia.
  - destruct (decide (target e ∈ visited)) as [Hin|Hnin].
    + rewrite (bool_decide_eq_true_2 (target e ∈ visited)) by exact Hin.
      rewrite (bool_decide_eq_true_2 (target e ∈ {[c]} ∪ visited))
        by (apply elem_of_union; right; exact Hin).
      simpl. exact IH.
    + rewrite (bool_decide_eq_false_2 (target e ∈ visited)) by exact Hnin.
      rewrite (bool_decide_eq_false_2 (target e ∈ {[c]} ∪ visited)).
      * simpl. lia.
      * intros [Heq%elem_of_singleton|Hin]%elem_of_union; [exact (Hne Heq)|exact (Hnin Hin)].
Qed.

(** The [while (queue.length > 0)] loop of [tracePathToRoot]. *)
Equations? trace_loop (es : list DiagramEdge) (queue : list string)
    (visited path : gset string) : gset string
    by wf (length queue + length (pending es visited)) lt :=
trace_loop es [] visited path := path;
trace_loop es (currentId :: queue) visited path with decide (currentId ∈ visited) => {
  | left _ := trace_loop es queue visited path;
  | right _ :=
      trace_loop es (queue ++ map source (parentEdges es currentId))
        ({[currentId]} ∪ visited)
        (({[currentId]} ∪ path) ∪ list_to_set (map edge_id (parentEdges es currentId)))
  }.
Proof.
  rewrite length_app, length_map.
  pose proof (pending_visit es visited currentId n). lia.
Qed.

(** [tracePathToRoot(startNodeId)]: the set it stores in [highlightedPath]. *)
Definition tracePathToRoot (es : list DiagramEdge) (startNodeId : string) : gset string :=
  trace_loop es [startNodeId] ∅ ∅.

(** [selectNode(id)]; [if (id)] is false on [null] and on the empty string. *)
Definition selectNode (id0 : option string) (s : Store) : Store :=
  {| nodes := nodes s;
     edges := edges s;
     selectedNodeId := id0;
     highlightedPath :=
       match id0 with
       | Some i => if truthy i then tracePathToRoot (edges s) i else ∅
       | None => ∅
       end;
     sandboxMode := sandboxMode s;
     originalState := originalState s |}.

(** ** The ownership propagator *)

(** [nodes.find(n => n.id === x)], as the position of the object found: the
    caller mutates that object. *)
Fixpoint find_node (x : string) (ns : list DiagramNode) : option nat :=
  match ns with
  | [] => None
  | n :: rest =>
      if String.eqb (id n) x then Some 0%nat
      else S <$> find_node x rest
  end.

(** [childNode.effectiveOwnership = (childNode.effectiveOwnership || 0) + q]. *)
Definition add_effective (q : float) (n : DiagramNode) : DiagramNode :=
  set_effectiveOwnership (num_or_0 (effectiveOwnership n) + q)%float n.

(** [edge.ownershipPercentage || 0]. *)
Definition directStake (e : DiagramEdge) : float :=
  num_or_0 (edge_ownershipPercentage e).

(** [propagateOwnership(parentId, parentEffective, nodes, edges)].  The node
    array is threaded through the calls; [fuel] bounds the depth of the
    recursion, and [None] is a recursion deeper than [fuel].  The recursive
    call is on [childNode.id], which is [edge.target], the identifier the
    node was found by. *)
Fixpoint propagateOwnership (fuel : nat) (parentId0 : string) (parentEffective : float)
    (ns : list DiagramNode) (es : list DiagramEdge) : option (list DiagramNode) :=
  match fuel with
  | O => None
  | S fuel' =>
      let childrenEdges := List.filter (fun e => String.eqb (source e) parentId0) es in
      fold_left
        (fun acc edge =>
           ns ← acc;
           match find_node (target edge) ns with
           | Some i =>
               let effectiveStake := (parentEffective * directStake edge / 100)%float in
               propagateOwnership fuel' (target edge) effectiveStake
                 (alter (add_effective effectiveStake) i ns) es
           | None => Some ns
           end)
        childrenEdges (Some ns)
  end.

(** [!edges.some(e => e.target === n.id)]. *)
Definition is_root (es : list DiagramEdge) (n : DiagramNode) : bool :=
  negb (existsb (fun e => String.eqb (target e) (id n)) es).

(** The positions, in order, of the objects that
    [nodes.filter(n => !edges.some(e => e.target === n.id))] returns, each
    with its [id] (no identifier is written during the propagation). *)
Fixpoint root_positions (es : list DiagramEdge) (base : nat) (ns : list DiagramNode)
    : list (nat * string) :=
  match ns with
  | [] => []
  | n :: rest =>
      (if is_root es n then [(base, id n)] else [])
      ++ root_positions es (S base) rest
  end.

(** [calculateEffectiveOwnership(nodes, edges)]. *)
Definition calculateEffectiveOwnership (fuel : nat) (ns : list DiagramNode)
    (es : list DiagramEdge) : option (list DiagramNode) :=
  let roots := root_positions es 0 ns in
  fold_left
    (fun acc root =>
       ns ← acc;
       propagateOwnership fuel (snd root) 100
         (alter (set_effectiveOwnership 100) (fst root) ns) es)
    roots (Some ns).

Section FlatEntityList.

(** The text of a number inside a template literal ([`${x}%`]), which the
    JavaScript runtime provides. *)
Variable Number_toString : float -> string.

(** The edge that [loadFlatEntityList] pushes for an entity with a truthy
    [parentId]. *)
Definition parent_edge (parent : string) (ent : DiagramNode) : DiagramEdge :=
  {| edge_id := ("e-" ++ parent ++ "-" ++ id ent)%string;
     source := parent;
     target := id ent;
     edge_label :=
       Some (match ownershipPercentage ent with
             | Some (Num q) => Number_toString q
             | Some Null => "null"
             | None => "undefined"
             end ++ "%")%string;
     edge_ownershipPercentage := ownershipPercentage ent;
     edge_isDraft := None |}.

(** The [edges] array after the [forEach] of [loadFlatEntityList]. *)
Definition synthesized_edges (entities : list DiagramNode) : list DiagramEdge :=
  flat_map (fun ent =>
              match parentId ent with
              | Some parent => if truthy parent then [parent_edge parent ent] else []
              | None => []
              end) entities.

(** The [nodes] array after the [forEach] of [loadFlatEntityList]. *)
Definition flat_nodes (entities : list DiagramNode) : list DiagramNode :=
  map (set_dimension {| width := Num 220; height := Num 100 |}) entities.

(** [loadFlatEntityList(entities)]; an entity is an object with the
    properties of a node, among them [parentId] and [ownershipPercentage]. *)
Definition loadFlatEntityList (fuel : nat) (entities : list DiagramNode) (s : Store)
    : option Store :=
  ns ← calculateEffectiveOwnership fuel (flat_nodes entities) (synthesized_edges entities);
  Some {| nodes := ns;
          edges := synthesized_edges entities;
          selectedNodeId := selectedNodeId s;
          highlightedPath := highlightedPath s;
          sandboxMode := sandboxMode s;
          originalState := originalState s |}.

End FlatEntityList.

(** * Properties *)

(** ** Path tracing *)

Section PathTracer.

Variable es : list DiagramEdge.
Variable start : string.

(** [ancestor x]: [x] is reached from [start] by following edges backwards,
    from target to source, any number of times (zero included). *)
Inductive ancestor : string -> Prop :=
| ancestor_start : ancestor start
| ancestor_parent e : In e es -> ancestor (target e) -> ancestor (source e).

(** The identifiers the claim lists: the ancestors, and the edges that
    point at one of them. *)
Definition on_ancestor_path (x : string) : Prop :=
  ancestor x \/ exists e, In e es /\ edge_id e = x /\ ancestor (target e).

(** The loop invariant of [tracePathToRoot]. *)
Record trace_inv (queue : list string) (visited path : gset string) : Prop := {
  inv_visited : forall v, v ∈ visited -> ancestor v;
  inv_queue : forall q, In q queue -> ancestor q;
  inv_path : forall x,
    x ∈ path <-> x ∈ visited \/ exists e, In e es /\ edge_id e = x /\ target e ∈ visited;
  inv_closed : forall e,
    In e es -> target e ∈ visited -> source e ∈ visited \/ In (source e) queue;
  inv_start : start ∈ visited \/ In start queue
}.

Lemma trace_inv_init : trace_inv [start] ∅ ∅.
Proof.
  split.
  - intros v Hv. exfalso. exact (not_elem_of_empty v Hv).
  - intros q [<-|[]]. constructor.
  - intros x. split.
    + intros Hx. exfalso. exact (not_elem_of_empty x Hx).
    + intros [Hx|(e & _ & _ & He)]; exfalso.
      * exact (not_elem_of_empty x Hx).
      * exact (not_elem_of_empty _ He).
  - intros e _ He. exfalso. exact (not_elem_of_empty _ He).
  - right. left. reflexivity.
Qed.

Lemma trace_inv_skip c queue visited path :
  c ∈ visited -> trace_inv (c :: queue) visited path -> trace_inv queue visited path.
Proof.
  intros Hc [Hv Hq Hp Hcl Hs]. split; try assumption.
  - intros q Hin. apply Hq. right. exact Hin.
  - intros e He Ht. destruct (Hcl e He Ht) as [?|[<-|?]]; auto.
  - destruct Hs as [?|[<-|?]]; auto.
Qed.

Lemma trace_inv_visit c queue visited path :
  c ∉ visited ->
  trace_inv (c :: queue) visited path ->
  trace_inv (queue ++ map source (parentEdges es c)) ({[c]} ∪ visited)
    (({[c]} ∪ path) ∪ list_to_set (map edge_id (parentEdges es c))).
Proof.
  intros Hc [Hv Hq Hp Hcl Hs].
  assert (Hanc : ancestor c) by (apply Hq; left; reflexivity).
  split.
  - intros v [->%elem_of_singleton|Hin]%elem_of_union; auto.
  - intros q [Hin|Hin]%in_app_iff.
    + apply Hq. right. exact Hin.
    + apply in_map_iff in Hin as (e & <- & He).
      apply filter_In in He as [He Ht]. apply String.eqb_eq in Ht.
      apply ancestor_parent; [exact He|]. rewrite Ht. exact Hanc.
  - intros x. rewrite !elem_of_union, elem_of_singleton, elem_of_list_to_set, Hp.
    rewrite list_elem_of_In, in_map_iff. split.
    + intros [[->|[Hx|(e & He & Hid & Ht)]]|(e & Hid & He)].
      * left. left. reflexivity.
      * left. right. exact Hx.
      * right. exists e. rewrite elem_of_union. auto.
      * apply filter_In in He as [He Ht]. apply String.eqb_eq in Ht.
        right. exists e. rewrite elem_of_union, elem_of_singleton. auto.
    + intros [[->|Hx]|(e & He & Hid & Ht)]; auto.
      apply elem_of_union in Ht as [Ht%elem_of_singleton|Ht].
      * right. exists e. split; [exact Hid|].
        apply filter_In. split; [exact He|]. apply String.eqb_eq. exact Ht.
      * left. right. right. exists e. auto.
  - intros e He Ht. rewrite elem_of_union, elem_of_singleton, in_app_iff.
    apply elem_of_union in Ht as [Ht%elem_of_singleton|Ht].
    + right. right. apply in_map. apply filter_In.
      split; [exact He|]. apply String.eqb_eq. exact Ht.
    + destruct (Hcl e He Ht) as [?|[<-|?]]; auto.
  - rewrite elem_of_union, elem_of_singleton, in_app_iff.
    destruct Hs as [?|[<-|?]]; auto.
Qed.

(** When the queue is exhausted the visited set is closed under parents and
    holds [start], so it holds every ancestor. *)
Lemma trace_inv_done visited path :
  trace_inv [] visited path -> forall x, x ∈ path <-> on_ancestor_path x.
Proof.
  intros [Hv Hq Hp Hcl Hs].
  assert (Hall : forall x, ancestor x -> x ∈ visited).
  { induction 1 as [|e He Hanc IH].
    - destruct Hs as [?|[]]; assumption.
    - destruct (Hcl e He IH) as [?|[]]; assumption. }
  intros x. rewrite Hp. unfold on_ancestor_path. split.
  - intros [Hx|(e & He & Hid & Ht)]; [left; auto|right; exists e; auto].
  - intros [Hx|(e & He & Hid & Ht)]; [left; auto|right; exists e; auto].
Qed.

Lemma trace_loop_spec queue visited path :
  trace_inv queue visited path ->
  forall x, x ∈ trace_loop es queue visited path <-> on_ancestor_path x.
Proof.
  funelim (trace_loop es queue visited path); intros Hinv.
  - eapply trace_inv_done. exact Hinv.
  - apply H. eapply trace_inv_skip; eassumption.
  - apply H. apply trace_inv_visit; assumption.
Qed.

Lemma tracePathToRoot_spec x :
  x ∈ tracePathToRoot es start <-> on_ancestor_path x.
Proof. apply trace_loop_spec, trace_inv_init. Qed.

End PathTracer.

(** ** Small graphs used as concrete inputs *)

(** A node with an identifier and a label only. *)
Definition plain_node (i l : string) : DiagramNode :=
  {| id := i; label := l; color := None; entityType := None;
     jurisdiction := None; taxId := None; officers := None;
     filingDueDate := None; isDraft := None; taxResidency := None;
     localCurrency := None; citRate := None; effectiveOwnership := None;
     status := None; region := None; pillarTwoStatus := None;
     dimension := None; parentId := None; ownershipPercentage := None |}.

(** An edge with an identifier and its two ends only. *)
Definition plain_edge (i s t : string) : DiagramEdge :=
  {| edge_id := i; source := s; target := t; edge_label := None;
     edge_ownershipPercentage := None; edge_isDraft := None |}.

(** A flat entity: identifier, parent reference, direct stake. *)
Definition flat_entity (i : string) (parent : option string) (stake : option number)
    : DiagramNode :=
  {| id := i; label := i; color := None; entityType := None;
     jurisdiction := None; taxId := None; officers := None;
     filingDueDate := None; isDraft := None; taxResidency := None;
     localCurrency := None; citRate := None; effectiveOwnership := None;
     status := None; region := None; pillarTwoStatus := None;
     dimension := None; parentId := parent; ownershipPercentage := stake |}.

(** A partial object with no property. *)
Definition no_fields : PartialNode :=
  {| p_id := None; p_label := None; p_color := None; p_entityType := None;
     p_jurisdiction := None; p_taxId := None; p_officers := None;
     p_filingDueDate := None; p_isDraft := None; p_taxResidency := None;
     p_localCurrency := None; p_citRate := None; p_effectiveOwnership := None;
     p_status := None; p_region := None; p_pillarTwoStatus := None;
     p_dimension := None; p_parentId := None; p_ownershipPercentage := None |}.

(** A live store holding the given graph, nothing selected. *)
Definition store_of (ns : list DiagramNode) (es : list DiagramEdge) : Store :=
  {| nodes := ns; edges := es; selectedNodeId := None; highlightedPath := ∅;
     sandboxMode := false; originalState := None |}.

(** Nodes [A], [B], [C] with [e1 : A -> B] and [e2 : B -> C]. *)
Definition store_ABC : Store :=
  store_of [plain_node "A" "A"; plain_node "B" "B"; plain_node "C" "C"]
           [plain_edge "e1" "A" "B"; plain_edge "e2" "B" "C"].

(** The derived signal [selectedNode]. *)
Definition selectedNode (s : Store) : option DiagramNode :=
  match selectedNodeId s with
  | Some sel => List.find (fun n => String.eqb (id n) sel) (nodes s)
  | None => None
  end.

(** ** C7: the highlighted path *)

(** The claim at a store and an identifier: the highlighted path after
    [selectNode(s)] is exactly [s], its ancestors and the edges pointing at
    them. *)
Definition highlights_ancestors (st : Store) (s : string) : Prop :=
  forall x, x ∈ highlightedPath (selectNode (Some s) st)
            <-> on_ancestor_path (edges st) s x.

(** C7, counterexample: a node may carry the empty string as identifier
    ([z.string()] accepts it); [if (id)] then takes the branch meant for
    [null] and the highlighted path is empty. *)
Lemma selectNode_empty_id_highlights_nothing :
  In "" (map id (nodes (store_of [plain_node "" "blank"] [])))
  /\ highlightedPath (selectNode (Some "") (store_of [plain_node "" "blank"] [])) = ∅
  /\ ~ highlights_ancestors (store_of [plain_node "" "blank"] []) "".
Proof.
  split; [left; reflexivity|]. split; [reflexivity|].
  intros H. specialize (H ""). simpl in H.
  apply (not_elem_of_empty (C:=gset string) ""), H. left. constructor.
Qed.

(** C7 (amended): for every graph and every non-empty identifier [s], the
    highlighted path after [selectNode(s)] holds exactly [s], every
    identifier reached from [s] by following edges from target to source, and
    the identifier of every edge whose target is one of those; on [A -> B -> C]
    selecting [C] gives [{C, e2, B, e1, A}] and selecting [A] gives [{A}]. *)
Theorem selectNode_highlights_ancestors (st : Store) (s : string) (Hs : s <> "") :
  highlights_ancestors st s
  /\ highlightedPath (selectNode (Some "C") store_ABC) = {["C"; "e2"; "B"; "e1"; "A"]}
  /\ highlightedPath (selectNode (Some "A") store_ABC) = {["A"]}.
Proof.
  split; [|split; vm_compute; reflexivity].
  intros x. simpl. unfold truthy.
  destruct (String.eqb_spec s "") as [->|_]; [contradiction|].
  simpl. apply tracePathToRoot_spec.
Qed.

Lemma selectNode_highlights_ancestors_witness :
  "C" <> "" /\ highlights_ancestors store_ABC "C".
Proof.
  split; [discriminate|].
  apply (selectNode_highlights_ancestors store_ABC "C"). discriminate.
Defined.

(** ** C3: cascading removal *)

(** C3: removing a present identifier [n] leaves no node with that
    identifier and no edge with [n] as source or target, clears the
    selection when it was [n], and keeps every other node and edge, in
    order. *)
Theorem removeNode_cascades (s : Store) (n : string)
    (Hn : In n (map id (nodes s))) :
  ~ In n (map id (nodes (removeNode n s)))
  /\ (forall e, In e (edges (removeNode n s)) -> source e <> n /\ target e <> n)
  /\ (selectedNodeId s = Some n -> selectedNodeId (removeNode n s) = None)
  /\ (selectedNodeId s <> Some n ->
      selectedNodeId (removeNode n s) = selectedNodeId s)
  /\ (forall m, In m (nodes (removeNode n s)) <-> In m (nodes s) /\ id m <> n)
  /\ (forall e, In e (edges (removeNode n s))
                <-> In e (edges s) /\ source e <> n /\ target e <> n)
  /\ sublist (nodes (removeNode n s)) (nodes s)
  /\ sublist (edges (removeNode n s)) (edges s).
Proof.
  assert (Hnodes : forall m, In m (nodes (removeNode n s)) <-> In m (nodes s) /\ id m <> n).
  { intros m. simpl. rewrite filter_In, negb_true_iff, String.eqb_neq. reflexivity. }
  assert (Hedges : forall e, In e (edges (removeNode n s))
                             <-> In e (edges s) /\ source e <> n /\ target e <> n).
  { intros e. simpl.
    rewrite filter_In, andb_true_iff, !negb_true_iff, !String.eqb_neq. reflexivity. }
  split.
  { intros (m & Hid & Hm)%in_map_iff. apply Hnodes in Hm as [_ Hne]. exact (Hne Hid). }
  split.
  { intros e He. apply Hedges in He. tauto. }
  split.
  { intros Hsel. simpl. rewrite Hsel, String.eqb_refl. reflexivity. }
  split.
  { intros Hsel. simpl. destruct (selectedNodeId s) as [sel|]; [|reflexivity].
    destruct (String.eqb_spec sel n) as [->|_]; [contradiction|reflexivity]. }
  split; [exact Hnodes|]. split; [exact Hedges|]. split.
  - simpl. clear. induction (nodes s) as [|m l IH]; simpl; [constructor|].
    destruct (negb _); [apply sublist_skip|apply sublist_cons]; exact IH.
  - simpl. clear. induction (edges s) as [|e l IH]; simpl; [constructor|].
    destruct (_ && _); [apply sublist_skip|apply sublist_cons]; exact IH.
Qed.

Lemma removeNode_cascades_witness :
  In "B" (map id (nodes store_ABC))
  /\ ~ In "B" (map id (nodes (removeNode "B" store_ABC)))
  /\ edges (removeNode "B" store_ABC) = [].
Proof.
  assert (H : In "B" (map id (nodes store_ABC))) by (right; left; reflexivity).
  split; [exact H|].
  split; [exact (proj1 (removeNode_cascades store_ABC "B" H))|reflexivity].
Defined.

(** ** C10: [addNode] appends without looking at identifiers *)

(** C10: [addNode(n)] appends [n] (with the dimension the method has just
    assigned to it) at the end of the node sequence, changes nothing else,
    and checks nothing: when a stored node already has [n]'s identifier the
    resulting node sequence holds that identifier twice. *)
Theorem addNode_appends_unchecked (s : Store) (n : DiagramNode) :
  nodes (addNode n s) = nodes s ++ [set_dimension {| width := Num 200; height := Num 90 |} n]
  /\ id (set_dimension {| width := Num 200; height := Num 90 |} n) = id n
  /\ edges (addNode n s) = edges s
  /\ selectedNodeId (addNode n s) = selectedNodeId s
  /\ highlightedPath (addNode n s) = highlightedPath s
  /\ sandboxMode (addNode n s) = sandboxMode s
  /\ originalState (addNode n s) = originalState s
  /\ (In (id n) (map id (nodes s)) -> ~ NoDup (map id (nodes (addNode n s)))).
Proof.
  repeat (split; [reflexivity|]).
  intros Hin Hnd. simpl in Hnd. rewrite map_app in Hnd. simpl in Hnd.
  apply NoDup_app in Hnd as (_ & Hdisj & _).
  apply (Hdisj (id n)).
  - apply list_elem_of_In. exact Hin.
  - apply list_elem_of_In. left. reflexivity.
Qed.

Lemma addNode_appends_unchecked_witness :
  In (id (plain_node "A" "again")) (map id (nodes store_ABC))
  /\ ~ NoDup (map id (nodes (addNode (plain_node "A" "again") store_ABC))).
Proof.
  assert (H : In (id (plain_node "A" "again")) (map id (nodes store_ABC)))
    by (left; reflexivity).
  split; [exact H|].
  apply (addNode_appends_unchecked store_ABC (plain_node "A" "again")). exact H.
Defined.

(** ** C6: operations on an unknown identifier *)

Lemma updateNode_unknown (s : Store) (id0 : string) (partial : PartialNode) :
  ~ In id0 (map id (nodes s)) -> updateNode id0 partial s = s.
Proof.
  intros Hid. destruct s as [ns es sel hp sm os]. unfold updateNode. simpl in *.
  f_equal. induction ns as [|n ns IH]; simpl; [reflexivity|].
  destruct (String.eqb_spec (id n) id0) as [Heq|_].
  - exfalso. apply Hid. left. exact Heq.
  - f_equal. apply IH. intros Hin. apply Hid. right. exact Hin.
Qed.

Lemma tracePathToRoot_start (es : list DiagramEdge) (s : string) :
  s ∈ tracePathToRoot es s.
Proof. apply tracePathToRoot_spec. left. constructor. Qed.

Lemma find_unknown (ns : list DiagramNode) (id0 : string) :
  ~ In id0 (map id ns) -> List.find (fun n => String.eqb (id n) id0) ns = None.
Proof.
  intros Hid. induction ns as [|n ns IH]; simpl; [reflexivity|].
  destruct (String.eqb_spec (id n) id0) as [Heq|_].
  - exfalso. apply Hid. left. exact Heq.
  - apply IH. intros Hin. apply Hid. right. exact Hin.
Qed.

(** The claim at a store, an identifier and a partial object: both
    operations leave the whole store as it was. *)
Definition unknown_id_is_noop (s : Store) (id0 : string) (partial : PartialNode) : Prop :=
  updateNode id0 partial s = s /\ selectNode (Some id0) s = s.

(** C6, counterexample: [selectNode] never looks at the node set; on an
    identifier no node carries it still records the selection and traces a
    path. *)
Lemma selectNode_unknown_id_changes_selection :
  ~ In "ghost" (map id (nodes store_ABC))
  /\ selectedNodeId (selectNode (Some "ghost") store_ABC) = Some "ghost"
  /\ highlightedPath (selectNode (Some "ghost") store_ABC) = {["ghost"]}
  /\ ~ unknown_id_is_noop store_ABC "ghost" no_fields.
Proof.
  split.
  { simpl. intros [H|[H|[H|[]]]]; discriminate. }
  split; [reflexivity|]. split; [vm_compute; reflexivity|].
  intros [_ H]. apply (f_equal selectedNodeId) in H. discriminate.
Qed.

(** C6 (amended): on an identifier that no stored node carries,
    [updateNode] leaves the whole store unchanged; [selectNode] raises no
    error and leaves nodes, edges and the sandbox unchanged, but it records
    the identifier as the selection and recomputes the highlighted path,
    which holds the identifier when it is not empty and is empty otherwise;
    the derived [selectedNode] is [null]. *)
Theorem unknown_id_update_noop_select_records (s : Store) (id0 : string)
    (partial : PartialNode) (Hid : ~ In id0 (map id (nodes s))) :
  updateNode id0 partial s = s
  /\ nodes (selectNode (Some id0) s) = nodes s
  /\ edges (selectNode (Some id0) s) = edges s
  /\ sandboxMode (selectNode (Some id0) s) = sandboxMode s
  /\ originalState (selectNode (Some id0) s) = originalState s
  /\ selectedNodeId (selectNode (Some id0) s) = Some id0
  /\ (id0 <> "" -> id0 ∈ highlightedPath (selectNode (Some id0) s))
  /\ (id0 = "" -> highlightedPath (selectNode (Some id0) s) = ∅)
  /\ selectedNode (selectNode (Some id0) s) = None.
Proof.
  split; [apply updateNode_unknown; exact Hid|].
  repeat (split; [reflexivity|]).
  split; [|split].
  - intros Hne. simpl. unfold truthy.
    destruct (String.eqb_spec id0 "") as [->|_]; [contradiction|].
    simpl. apply tracePathToRoot_start.
  - intros ->. reflexivity.
  - unfold selectedNode. simpl. apply find_unknown. exact Hid.
Qed.

Lemma unknown_id_update_noop_select_records_witness :
  ~ In "ghost" (map id (nodes store_ABC))
  /\ updateNode "ghost" no_fields store_ABC = store_ABC
  /\ selectedNodeId (selectNode (Some "ghost") store_ABC) = Some "ghost".
Proof.
  assert (H : ~ In "ghost" (map id (nodes store_ABC))).
  { simpl. intros [H|[H|[H|[]]]]; discriminate. }
  split; [exact H|].
  pose proof (unknown_id_update_noop_select_records store_ABC "ghost" no_fields H)
    as (Hu & _ & _ & _ & _ & Hs & _).
  split; [exact Hu|exact Hs].
Defined.

(** ** The schemas on small payloads *)

(** An unknown key is stripped, an absent optional key is accepted. *)
Example NodeSchema_strips_unknown_keys :
  NodeSchema (JObj [("id", JStr "N1"); ("label", JStr "one"); ("shape", JStr "box")])
  = Some (plain_node "N1" "one").
Proof. reflexivity. Qed.

(** [null] is not [undefined]: an optional key set to [null] is refused. *)
Example NodeSchema_refuses_null :
  NodeSchema (JObj [("id", JStr "N1"); ("label", JStr "one"); ("color", JNull)]) = None.
Proof. reflexivity. Qed.

(** A value outside the enumeration is refused, one inside is read. *)
Example NodeSchema_checks_status :
  NodeSchema (JObj [("id", JStr "N1"); ("label", JStr "one"); ("status", JStr "Dormant")])
  = None
  /\ status <$> NodeSchema (JObj [("id", JStr "N1"); ("label", JStr "one");
                                   ("status", JStr "Liquidation")])
     = Some (Some Liquidation).
Proof. split; reflexivity. Qed.

(** A node without label and an edge without target are refused, and so is
    a payload that is not an object. *)
Example DiagramSchema_refuses_missing_keys :
  DiagramSchema (JObj [("nodes", JArr [JObj [("id", JStr "N1")]]); ("edges", JArr [])])
  = None
  /\ DiagramSchema (JObj [("nodes", JArr []);
                          ("edges", JArr [JObj [("id", JStr "e"); ("source", JStr "a")]])])
     = None
  /\ DiagramSchema (JArr []) = None.
Proof. repeat split; reflexivity. Qed.

(** ** C9: a rejected load changes nothing *)

(** C9: when the payload fails [DiagramSchema], [loadDiagram] reports the
    rejection and returns the store it was given: nodes, edges, selection,
    highlighted path and sandbox are those of before the call. *)
Theorem loadDiagram_rejected_keeps_state (json : jsval) (s : Store)
    (Hinvalid : DiagramSchema json = None) :
  fst (loadDiagram json s) = s
  /\ (exists alert, snd (loadDiagram json s) = Rejected alert)
  /\ nodes (fst (loadDiagram json s)) = nodes s
  /\ edges (fst (loadDiagram json s)) = edges s
  /\ selectedNodeId (fst (loadDiagram json s)) = selectedNodeId s
  /\ highlightedPath (fst (loadDiagram json s)) = highlightedPath s.
Proof.
  unfold loadDiagram. rewrite Hinvalid. simpl.
  split; [reflexivity|]. split; [eexists; reflexivity|]. repeat split.
Qed.

(** A payload whose first node is valid and whose second node has a number
    as identifier. *)
Definition payload_bad_second_node : jsval :=
  JObj [("nodes", JArr [JObj [("id", JStr "N1"); ("label", JStr "first")];
                        JObj [("id", JNum 2); ("label", JStr "second")]]);
        ("edges", JArr [])].

Lemma loadDiagram_rejected_keeps_state_witness :
  DiagramSchema payload_bad_second_node = None
  /\ fst (loadDiagram payload_bad_second_node store_ABC) = store_ABC.
Proof.
  split; [reflexivity|].
  apply (loadDiagram_rejected_keeps_state payload_bad_second_node store_ABC).
  reflexivity.
Defined.

(** ** C4: identifiers of a loaded payload *)

#[local] Instance JStr_inj : Inj (=) (=) JStr.
Proof. intros a b H. injection H as ->. reflexivity. Qed.

Lemma NodeSchema_id (v : jsval) (n : DiagramNode) :
  NodeSchema v = Some n -> get "id" (props_of v) = JStr (id n).
Proof.
  destruct v as [| | | | | |o]; try discriminate. simpl.
  destruct (get "id" o) as [| | | |i| |]; try discriminate.
  intros H. simpl in H.
  repeat (apply bind_Some in H as (? & _ & H)).
  injection H as <-. reflexivity.
Qed.

Lemma z_array_NodeSchema_ids (items : list jsval) (ns : list DiagramNode) :
  mapM NodeSchema items = Some ns ->
  map (fun n => JStr (id n)) ns = map (fun v => get "id" (props_of v)) items.
Proof.
  intros H. apply mapM_Some in H.
  induction H as [|v n items ns Hv _ IH]; simpl; [reflexivity|].
  rewrite IH, (NodeSchema_id v n Hv). reflexivity.
Qed.

(** The identifiers that the nodes of a payload carry, in order. *)
Definition payload_ids (json : jsval) : list jsval :=
  map (fun v => get "id" (props_of v)) (items_of (get "nodes" (props_of json))).

Lemma DiagramSchema_ids (json : jsval) (dn : list DiagramNode) (de : list DiagramEdge) :
  DiagramSchema json = Some (dn, de) ->
  map (fun n => JStr (id n)) dn = payload_ids json.
Proof.
  destruct json as [| | | | | |o]; try discriminate. unfold payload_ids. simpl.
  intros H. apply bind_Some in H as (ns & Hns & H).
  apply bind_Some in H as (es & _ & H). injection H as <- <-.
  destruct (get "nodes" o) as [| | | | |items|]; try discriminate.
  apply z_array_NodeSchema_ids. exact Hns.
Qed.

(** The claim at a payload and a store: the load is refused and nothing of
    the payload is stored. *)
Definition load_is_rejected (json : jsval) (s : Store) : Prop :=
  fst (loadDiagram json s) = s /\ exists alert, snd (loadDiagram json s) = Rejected alert.

(** Two nodes with the identifier [a]. *)
Definition payload_duplicate_ids : jsval :=
  JObj [("nodes", JArr [JObj [("id", JStr "a"); ("label", JStr "first")];
                        JObj [("id", JStr "a"); ("label", JStr "second")]]);
        ("edges", JArr [])].

(** C4, counterexample: the schema has no rule on identifiers beyond their
    type; the payload with two nodes [a] is accepted and stored with both. *)
Lemma loadDiagram_accepts_duplicate_ids :
  payload_ids payload_duplicate_ids = [JStr "a"; JStr "a"]
  /\ snd (loadDiagram payload_duplicate_ids (store_of [] [])) = Loaded
  /\ map id (nodes (fst (loadDiagram payload_duplicate_ids (store_of [] [])))) = ["a"; "a"]
  /\ ~ NoDup (map id (nodes (fst (loadDiagram payload_duplicate_ids (store_of [] [])))))
  /\ ~ load_is_rejected payload_duplicate_ids (store_of [] []).
Proof.
  split; [reflexivity|]. split; [reflexivity|]. split; [reflexivity|]. split.
  - simpl. intros H. apply NoDup_cons in H as [H _]. apply H. left.
  - intros [_ [alert H]]. discriminate.
Qed.

(** C4 (amended): validation looks at the type of each identifier, not at
    its uniqueness.  A payload that passes the schema is applied whether or
    not identifiers repeat: the stored nodes carry, in order, the identifiers
    of the payload's nodes, duplicates included, so the stored identifiers
    are pairwise distinct exactly when those of the payload are. *)
Theorem loadDiagram_stores_payload_ids (json : jsval) (s : Store)
    (dn : list DiagramNode) (de : list DiagramEdge)
    (Hvalid : DiagramSchema json = Some (dn, de)) :
  snd (loadDiagram json s) = Loaded
  /\ map (fun n => JStr (id n)) (nodes (fst (loadDiagram json s))) = payload_ids json
  /\ (NoDup (map id (nodes (fst (loadDiagram json s)))) <-> NoDup (payload_ids json)).
Proof.
  pose proof (DiagramSchema_ids json dn de Hvalid) as Hids.
  unfold loadDiagram. rewrite Hvalid. simpl.
  assert (Hmap : map id (map (fun n => set_dimension {| width := Num 200; height := Num 90 |}
                                         (set_label (str_or (label n) (id n)) n)) dn)
                 = map id dn).
  { rewrite map_map. apply map_ext. reflexivity. }
  split; [reflexivity|]. split.
  - rewrite <- Hids, map_map. apply map_ext. reflexivity.
  - rewrite Hmap, <- Hids, <- (map_map id JStr).
    symmetry. apply (NoDup_fmap JStr).
Qed.

Lemma loadDiagram_stores_payload_ids_witness :
  exists dn de,
    DiagramSchema payload_duplicate_ids = Some (dn, de)
    /\ snd (loadDiagram payload_duplicate_ids store_ABC) = Loaded
    /\ ~ NoDup (map id (nodes (fst (loadDiagram payload_duplicate_ids store_ABC)))).
Proof.
  eexists _, _. split; [reflexivity|].
  pose proof (loadDiagram_stores_payload_ids payload_duplicate_ids store_ABC _ _ eq_refl)
    as (Hl & _ & Hnd).
  split; [exact Hl|].
  intros H. apply Hnd in H. simpl in H.
  apply NoDup_cons in H as [H _]. apply H. left.
Defined.

(** ** C5: what a load does to the selection *)

(** The explicit form: a payload that passes the schema replaces nodes and
    edges and clears the selection and the highlighted path. *)
Lemma loadDiagram_clears_selection (json : jsval) (s : Store)
    (dn : list DiagramNode) (de : list DiagramEdge) :
  DiagramSchema json = Some (dn, de) ->
  nodes (fst (loadDiagram json s))
  = map (fun n => set_dimension {| width := Num 200; height := Num 90 |}
                    (set_label (str_or (label n) (id n)) n)) dn
  /\ edges (fst (loadDiagram json s)) = de
  /\ selectedNodeId (fst (loadDiagram json s)) = None
  /\ highlightedPath (fst (loadDiagram json s)) = ∅.
Proof. intros H. unfold loadDiagram. rewrite H. repeat split. Qed.

(** The flat form: [loadFlatEntityList] sets nodes and edges and writes
    neither [selectedNodeId] nor [highlightedPath]. *)
Lemma loadFlatEntityList_keeps_selection (Number_toString : float -> string) (fuel : nat)
    (entities : list DiagramNode) (s s' : Store) :
  loadFlatEntityList Number_toString fuel entities s = Some s' ->
  selectedNodeId s' = selectedNodeId s /\ highlightedPath s' = highlightedPath s.
Proof.
  unfold loadFlatEntityList. intros H.
  apply bind_Some in H as (ns & _ & H). injection H as <-. split; reflexivity.
Qed.

(** C5, the flat form at a concrete input: with [C] selected on
    [A -> B -> C], loading the one-entity list [[{id: 'Z'}]] replaces the
    graph and leaves [C] selected and its path highlighted. *)
Theorem loadFlatEntityList_stale_selection (Number_toString : float -> string) :
  exists s',
    loadFlatEntityList Number_toString 1 [flat_entity "Z" None None]
      (selectNode (Some "C") store_ABC) = Some s'
    /\ map id (nodes s') = ["Z"]
    /\ edges s' = []
    /\ selectedNodeId s' = Some "C"
    /\ highlightedPath s' = {["C"; "e2"; "B"; "e1"; "A"]}
    /\ selectedNodeId s' <> None
    /\ highlightedPath s' <> ∅.
Proof.
  eexists. split; [reflexivity|]. simpl.
  split; [reflexivity|]. split; [reflexivity|]. split; [reflexivity|].
  assert (Hp : tracePathToRoot
                 [plain_edge "e1" "A" "B"; plain_edge "e2" "B" "C"] "C"
               = {["C"; "e2"; "B"; "e1"; "A"]}) by (vm_compute; reflexivity).
  split; [exact Hp|]. split; [discriminate|].
  rewrite Hp. intros H.
  apply (not_elem_of_empty (C:=gset string) "C"). rewrite <- H.
  apply elem_of_union. left. apply elem_of_union. left. apply elem_of_union. left.
  apply elem_of_union. left. apply elem_of_singleton. reflexivity.
Qed.

(** ** JSON copies of typed objects *)

(** The object case of [JSON_roundtrip], as a function of its own. *)
Fixpoint props_roundtrip (ps : list (string * jsval)) : list (string * jsval) :=
  match ps with
  | [] => []
  | (k, x) :: rest =>
      match x with
      | JUndefined => props_roundtrip rest
      | _ => (k, JSON_roundtrip x) :: props_roundtrip rest
      end
  end.

Lemma JSON_roundtrip_obj (ps : list (string * jsval)) :
  JSON_roundtrip (JObj ps) = JObj (props_roundtrip ps).
Proof.
  reflexivity.
Qed.

Lemma get_absent (k : string) (ps : list (string * jsval)) :
  ~ In k (map fst ps) -> get k ps = JUndefined.
Proof.
  induction ps as [|[k' x] rest IH]; simpl; [reflexivity|].
  intros Hk. destruct (String.eqb_spec k k') as [->|_].
  - exfalso. apply Hk. left. reflexivity.
  - apply IH. intros Hin. apply Hk. right. exact Hin.
Qed.

(** Reading a property of the copy is copying the property read, as long as
    the object has no key twice. *)
Lemma get_props_roundtrip (k : string) (ps : list (string * jsval)) :
  NoDup (map fst ps) -> get k (props_roundtrip ps) = JSON_roundtrip (get k ps).
Proof.
  induction ps as [|[k' x] rest IH]; [reflexivity|].
  intros Hnd. apply NoDup_cons in Hnd as [Hk' Hnd]. specialize (IH Hnd).
  assert (Hskip : get k (props_roundtrip rest)
                  = JSON_roundtrip (if String.eqb k k' then JUndefined else get k rest)).
  { destruct (String.eqb_spec k k') as [->|_]; [|exact IH].
    rewrite IH, get_absent; [reflexivity|].
    intros Hin. apply Hk'. apply list_elem_of_In. exact Hin. }
  destruct x; cbn [props_roundtrip get];
    destruct (String.eqb_spec k k') as [->|Hne];
    try reflexivity; try exact IH.
  exact Hskip.
Qed.

(** What the copy holds in place of a number property: [null] for [NaN] and
    the infinities, [0] for the negative zero, the number itself otherwise. *)
Definition JSON_number (x : number) : number :=
  match x with
  | Num q =>
      match classify q with
      | NaN | PInf | NInf => Null
      | NZero => Num 0
      | _ => Num q
      end
  | Null => Null
  end.

Definition JSON_Dimension (d : Dimension) : Dimension :=
  {| width := JSON_number (width d); height := JSON_number (height d) |}.

(** The JSON copy of a node, property by property: numbers go through
    [JSON_number], every other property is copied as it is. *)
Definition JSON_node (n : DiagramNode) : DiagramNode :=
  {| id := id n; label := label n; color := color n;
     entityType := entityType n; jurisdiction := jurisdiction n;
     taxId := taxId n; officers := officers n;
     filingDueDate := filingDueDate n; isDraft := isDraft n;
     taxResidency := taxResidency n; localCurrency := localCurrency n;
     citRate := JSON_number <$> citRate n;
     effectiveOwnership := JSON_number <$> effectiveOwnership n;
     status := status n; region := region n;
     pillarTwoStatus := pillarTwoStatus n;
     dimension := JSON_Dimension <$> dimension n;
     parentId := parentId n;
     ownershipPercentage := JSON_number <$> ownershipPercentage n |}.

Definition JSON_edge (e : DiagramEdge) : DiagramEdge :=
  {| edge_id := edge_id e; source := source e; target := target e;
     edge_label := edge_label e;
     edge_ownershipPercentage := JSON_number <$> edge_ownershipPercentage e;
     edge_isDraft := edge_isDraft e |}.

(** A number property that its JSON copy leaves as it is: absent, [null], or
    a finite number other than the negative zero. *)
Definition stable_number (x : option number) : bool :=
  match x with
  | Some (Num q) =>
      match classify q with
      | NaN | PInf | NInf | NZero => false
      | _ => true
      end
  | Some Null => true
  | None => true
  end.

Definition stable_Dimension (d : option Dimension) : bool :=
  match d with
  | Some d => stable_number (Some (width d)) && stable_number (Some (height d))
  | None => true
  end.

Definition stable_node (n : DiagramNode) : bool :=
  stable_number (citRate n) && stable_number (effectiveOwnership n)
  && stable_Dimension (dimension n) && stable_number (ownershipPercentage n).

Definition stable_edge (e : DiagramEdge) : bool :=
  stable_number (edge_ownershipPercentage e).

(** A number property that an exported document carries as a number, if at
    all: absent, or a finite number. *)
Definition finite_number (x : option number) : bool :=
  match x with
  | Some (Num q) =>
      match classify q with
      | NaN | PInf | NInf => false
      | _ => true
      end
  | Some Null => false
  | None => true
  end.

(** The numbers that the schemas declare are finite. *)
Definition exportable_node (n : DiagramNode) : bool :=
  finite_number (citRate n) && finite_number (effectiveOwnership n).

Definition exportable_edge (e : DiagramEdge) : bool :=
  finite_number (edge_ownershipPercentage e).

Definition exportable (s : Store) : bool :=
  forallb exportable_node (nodes s) && forallb exportable_edge (edges s).

Lemma JSON_number_stable (x : option number) :
  stable_number x = true -> JSON_number <$> x = x.
Proof.
  destruct x as [[q|]|]; try reflexivity. simpl.
  destruct (classify q); try discriminate; reflexivity.
Qed.

Lemma JSON_node_stable (n : DiagramNode) : stable_node n = true -> JSON_node n = n.
Proof.
  unfold stable_node. rewrite !andb_true_iff. intros [[[Hc He] Hd] Ho].
  unfold JSON_node.
  rewrite (JSON_number_stable _ Hc), (JSON_number_stable _ He),
    (JSON_number_stable _ Ho).
  assert (Hdim : JSON_Dimension <$> dimension n = dimension n).
  { destruct (dimension n) as [[w h]|]; [|reflexivity].
    cbn [stable_Dimension width height] in Hd. apply andb_true_iff in Hd as [Hw Hh].
    apply JSON_number_stable in Hw, Hh. cbn [fmap option_fmap option_map] in Hw, Hh.
    injection Hw as Hw. injection Hh as Hh.
    simpl. unfold JSON_Dimension. simpl. rewrite Hw, Hh. reflexivity. }
  rewrite Hdim. destruct n; reflexivity.
Qed.

Lemma JSON_edge_stable (e : DiagramEdge) : stable_edge e = true -> JSON_edge e = e.
Proof.
  unfold stable_edge, JSON_edge. intros H.
  rewrite (JSON_number_stable _ H). destruct e; reflexivity.
Qed.

Lemma map_stable {A} (f : A -> A) (ok : A -> bool) (l : list A) :
  (forall a, ok a = true -> f a = a) -> forallb ok l = true -> map f l = l.
Proof.
  intros Hf. induction l as [|a l IH]; simpl; [reflexivity|].
  intros [Ha Hl]%andb_true_iff. rewrite (Hf a Ha), (IH Hl). reflexivity.
Qed.

Lemma JSON_roundtrip_js_opt_str (x : option string) :
  JSON_roundtrip (js_opt JStr x) = js_opt JStr x.
Proof. destruct x; reflexivity. Qed.

Lemma JSON_roundtrip_js_of_number (x : number) :
  JSON_roundtrip (js_of_number x) = js_of_number (JSON_number x).
Proof.
  destruct x as [q|]; [|reflexivity].
  cbn [js_of_number JSON_roundtrip JSON_number]. unfold JSON_float.
  destruct (classify q); reflexivity.
Qed.

Lemma JSON_roundtrip_js_opt_num (x : option number) :
  JSON_roundtrip (js_opt js_of_number x) = js_opt js_of_number (JSON_number <$> x).
Proof. destruct x as [x|]; [apply JSON_roundtrip_js_of_number|reflexivity]. Qed.

Lemma JSON_roundtrip_js_opt_bool (x : option bool) :
  JSON_roundtrip (js_opt JBool x) = js_opt JBool x.
Proof. destruct x; reflexivity. Qed.

Lemma JSON_roundtrip_js_opt_strings (x : option (list string)) :
  JSON_roundtrip (js_opt js_of_strings x) = js_opt js_of_strings x.
Proof.
  destruct x as [l|]; [|reflexivity]. simpl. unfold js_of_strings. f_equal.
  rewrite map_map. apply map_ext. reflexivity.
Qed.

Lemma JSON_roundtrip_js_opt_enum {A} (f : A -> string) (x : option A) :
  JSON_roundtrip (js_opt (fun a => JStr (f a)) x) = js_opt (fun a => JStr (f a)) x.
Proof. destruct x; reflexivity. Qed.

Lemma JSON_roundtrip_js_opt_Dimension (x : option Dimension) :
  JSON_roundtrip (js_opt js_of_Dimension x) = js_opt js_of_Dimension (JSON_Dimension <$> x).
Proof.
  destruct x as [[[qw|] [qh|]]|]; try reflexivity;
    cbv [js_opt js_of_Dimension fmap option_fmap option_map JSON_Dimension
           JSON_number width height js_of_number];
    simpl; unfold JSON_float;
    try destruct (classify qw); try destruct (classify qh); reflexivity.
Qed.

Lemma node_keys_NoDup (n : DiagramNode) : NoDup (map fst (props_of (js_of_node n))).
Proof. simpl. refine (bool_decide_unpack (NoDup _) _). vm_compute. exact I. Qed.

Lemma edge_keys_NoDup (e : DiagramEdge) : NoDup (map fst (props_of (js_of_edge e))).
Proof. simpl. refine (bool_decide_unpack (NoDup _) _). vm_compute. exact I. Qed.

(** Every property of the copy of a typed node or edge is the copy of the
    property. *)
Lemma get_node_roundtrip (n : DiagramNode) (k : string) :
  get k (props_roundtrip (props_of (js_of_node n)))
  = JSON_roundtrip (get k (props_of (js_of_node n))).
Proof. apply get_props_roundtrip, node_keys_NoDup. Qed.

Lemma get_edge_roundtrip (e : DiagramEdge) (k : string) :
  get k (props_roundtrip (props_of (js_of_edge e)))
  = JSON_roundtrip (get k (props_of (js_of_edge e))).
Proof. apply get_props_roundtrip, edge_keys_NoDup. Qed.

(** What each schema entry makes of the copy of a typed property. *)
Lemma z_string_field (s : string) (v : jsval) :
  v = JSON_roundtrip (JStr s) -> z_string v = Some s.
Proof. intros ->. reflexivity. Qed.

Lemma z_opt_string_field (x : option string) (v : jsval) :
  v = JSON_roundtrip (js_opt JStr x) -> z_optional z_string v = Some x.
Proof. intros ->. destruct x; reflexivity. Qed.

(** A number passes when it is finite: [null], which the copy holds for
    [NaN] and the infinities, is refused. *)
Lemma z_opt_number_field (x : option number) (v : jsval) :
  v = JSON_roundtrip (js_opt js_of_number x) ->
  z_optional z_number v
  = if finite_number x then Some (JSON_number <$> x) else None.
Proof.
  intros ->. destruct x as [[q|]|]; try reflexivity.
  cbn [js_opt js_of_number JSON_roundtrip finite_number fmap option_fmap option_map
         JSON_number].
  unfold JSON_float. destruct (classify q) eqn:Hq; try reflexivity;
    cbn [z_optional z_number fmap option_fmap option_map]; rewrite Hq; reflexivity.
Qed.

Lemma z_opt_boolean_field (x : option bool) (v : jsval) :
  v = JSON_roundtrip (js_opt JBool x) -> z_optional z_boolean v = Some x.
Proof. intros ->. destruct x; reflexivity. Qed.

Lemma mapM_z_string (l : list string) : mapM z_string (map JStr l) = Some l.
Proof. induction l as [|s l IH]; simpl; [reflexivity|]. rewrite IH. reflexivity. Qed.

Lemma z_opt_strings_field (x : option (list string)) (v : jsval) :
  v = JSON_roundtrip (js_opt js_of_strings x) ->
  z_optional (z_array z_string) v = Some x.
Proof.
  intros ->. rewrite JSON_roundtrip_js_opt_strings.
  destruct x as [l|]; [|reflexivity]. simpl.
  rewrite mapM_z_string. reflexivity.
Qed.

Lemma z_opt_Status_field (x : option Status) (v : jsval) :
  v = JSON_roundtrip (js_opt (fun a => JStr (string_of_Status a)) x) ->
  z_optional (z_enum Status_of_string) v = Some x.
Proof. intros ->. destruct x as [[]|]; reflexivity. Qed.

Lemma z_opt_PillarTwoStatus_field (x : option PillarTwoStatus) (v : jsval) :
  v = JSON_roundtrip (js_opt (fun a => JStr (string_of_PillarTwoStatus a)) x) ->
  z_optional (z_enum PillarTwoStatus_of_string) v = Some x.
Proof. intros ->. destruct x as [[]|]; reflexivity. Qed.

(** The declared keys of a node: what [NodeSchema] keeps of it. *)
Definition schema_part (n : DiagramNode) : DiagramNode :=
  {| id := id n; label := label n; color := color n;
     entityType := entityType n; jurisdiction := jurisdiction n;
     taxId := taxId n; officers := officers n;
     filingDueDate := filingDueDate n; isDraft := isDraft n;
     taxResidency := taxResidency n; localCurrency := localCurrency n;
     citRate := citRate n; effectiveOwnership := effectiveOwnership n;
     status := status n; region := region n;
     pillarTwoStatus := pillarTwoStatus n;
     dimension := None; parentId := None; ownershipPercentage := None |}.

(** An exported node passes [NodeSchema] exactly when its declared numbers
    are finite; the schema then keeps the declared keys of its copy. *)
Lemma NodeSchema_exported (n : DiagramNode) :
  NodeSchema (JSON_roundtrip (js_of_node n))
  = if exportable_node n then Some (schema_part (JSON_node n)) else None.
Proof.
  change (js_of_node n) with (JObj (props_of (js_of_node n))).
  rewrite JSON_roundtrip_obj. unfold NodeSchema.
  rewrite !get_node_roundtrip.
  set (o := props_of (js_of_node n)).
  rewrite (z_string_field (id n) (JSON_roundtrip (get "id" o)) eq_refl).
  rewrite (z_string_field (label n) (JSON_roundtrip (get "label" o)) eq_refl).
  rewrite (z_opt_string_field (color n) (JSON_roundtrip (get "color" o)) eq_refl).
  rewrite (z_opt_string_field (entityType n) (JSON_roundtrip (get "entityType" o)) eq_refl).
  rewrite (z_opt_string_field (jurisdiction n) (JSON_roundtrip (get "jurisdiction" o))
             eq_refl).
  rewrite (z_opt_string_field (taxId n) (JSON_roundtrip (get "taxId" o)) eq_refl).
  rewrite (z_opt_strings_field (officers n) (JSON_roundtrip (get "officers" o)) eq_refl).
  rewrite (z_opt_string_field (filingDueDate n) (JSON_roundtrip (get "filingDueDate" o))
             eq_refl).
  rewrite (z_opt_boolean_field (isDraft n) (JSON_roundtrip (get "isDraft" o)) eq_refl).
  rewrite (z_opt_string_field (taxResidency n) (JSON_roundtrip (get "taxResidency" o))
             eq_refl).
  rewrite (z_opt_string_field (localCurrency n) (JSON_roundtrip (get "localCurrency" o))
             eq_refl).
  rewrite (z_opt_number_field (citRate n) (JSON_roundtrip (get "citRate" o)) eq_refl).
  rewrite (z_opt_number_field (effectiveOwnership n)
             (JSON_roundtrip (get "effectiveOwnership" o)) eq_refl).
  rewrite (z_opt_Status_field (status n) (JSON_roundtrip (get "status" o)) eq_refl).
  rewrite (z_opt_string_field (region n) (JSON_roundtrip (get "region" o)) eq_refl).
  rewrite (z_opt_PillarTwoStatus_field (pillarTwoStatus n)
             (JSON_roundtrip (get "pillarTwoStatus" o)) eq_refl).
  unfold exportable_node.
  destruct (finite_number (citRate n)), (finite_number (effectiveOwnership n));
    reflexivity.
Qed.

(** An exported edge passes [EdgeSchema] exactly when its percentage is
    finite. *)
Lemma EdgeSchema_exported (e : DiagramEdge) :
  EdgeSchema (JSON_roundtrip (js_of_edge e))
  = if exportable_edge e then Some (JSON_edge e) else None.
Proof.
  change (js_of_edge e) with (JObj (props_of (js_of_edge e))).
  rewrite JSON_roundtrip_obj. unfold EdgeSchema.
  rewrite !get_edge_roundtrip.
  set (o := props_of (js_of_edge e)).
  rewrite (z_string_field (edge_id e) (JSON_roundtrip (get "id" o)) eq_refl).
  rewrite (z_string_field (source e) (JSON_roundtrip (get "source" o)) eq_refl).
  rewrite (z_string_field (target e) (JSON_roundtrip (get "target" o)) eq_refl).
  rewrite (z_opt_string_field (edge_label e) (JSON_roundtrip (get "label" o)) eq_refl).
  rewrite (z_opt_number_field (edge_ownershipPercentage e)
             (JSON_roundtrip (get "ownershipPercentage" o)) eq_refl).
  rewrite (z_opt_boolean_field (edge_isDraft e) (JSON_roundtrip (get "isDraft" o)) eq_refl).
  unfold exportable_edge.
  destruct (finite_number (edge_ownershipPercentage e)); reflexivity.
Qed.

(** Reading back each typed property. *)
Lemma as_string_js_opt (x : option string) : as_string (js_opt JStr x) = x.
Proof. destruct x; reflexivity. Qed.

Lemma as_number_js_of_number (x : number) : as_number (js_of_number x) = Some x.
Proof. destruct x; reflexivity. Qed.

Lemma as_number_js_opt (x : option number) : as_number (js_opt js_of_number x) = x.
Proof. destruct x as [x|]; [apply as_number_js_of_number|reflexivity]. Qed.

Lemma as_boolean_js_opt (x : option bool) : as_boolean (js_opt JBool x) = x.
Proof. destruct x; reflexivity. Qed.

Lemma as_strings_js_opt (x : option (list string)) :
  as_strings (js_opt js_of_strings x) = x.
Proof.
  destruct x as [l|]; [|reflexivity]. simpl. f_equal.
  induction l as [|s l IH]; simpl; [reflexivity|]. f_equal. exact IH.
Qed.

Lemma as_Dimension_js_opt (x : option Dimension) :
  as_Dimension (js_opt js_of_Dimension x) = x.
Proof.
  destruct x as [[w h]|]; [|reflexivity].
  cbn [js_opt js_of_Dimension as_Dimension get String.eqb Ascii.eqb Bool.eqb width height].
  rewrite !as_number_js_of_number. reflexivity.
Qed.

Lemma as_Status_js_opt (x : option Status) :
  as_string (js_opt (fun a => JStr (string_of_Status a)) x) ≫= Status_of_string = x.
Proof. destruct x as [[]|]; reflexivity. Qed.

Lemma as_PillarTwoStatus_js_opt (x : option PillarTwoStatus) :
  as_string (js_opt (fun a => JStr (string_of_PillarTwoStatus a)) x)
    ≫= PillarTwoStatus_of_string = x.
Proof. destruct x as [[]|]; reflexivity. Qed.

(** The JSON copy of a node is [JSON_node] of it. *)
Lemma node_of_js_roundtrip (n : DiagramNode) :
  node_of_js (JSON_roundtrip (js_of_node n)) = JSON_node n.
Proof.
  change (js_of_node n) with (JObj (props_of (js_of_node n))).
  rewrite JSON_roundtrip_obj. unfold node_of_js. cbn [props_of].
  rewrite !get_node_roundtrip.
  cbn [get props_of js_of_node String.eqb Ascii.eqb Bool.eqb].
  rewrite !JSON_roundtrip_js_opt_str, !JSON_roundtrip_js_opt_num,
    JSON_roundtrip_js_opt_bool, JSON_roundtrip_js_opt_strings,
    JSON_roundtrip_js_opt_Dimension,
    (JSON_roundtrip_js_opt_enum string_of_Status),
    (JSON_roundtrip_js_opt_enum string_of_PillarTwoStatus).
  rewrite !as_string_js_opt, !as_number_js_opt, as_boolean_js_opt,
    as_strings_js_opt, as_Dimension_js_opt, as_Status_js_opt,
    as_PillarTwoStatus_js_opt.
  reflexivity.
Qed.

Lemma edge_of_js_roundtrip (e : DiagramEdge) :
  edge_of_js (JSON_roundtrip (js_of_edge e)) = JSON_edge e.
Proof.
  change (js_of_edge e) with (JObj (props_of (js_of_edge e))).
  rewrite JSON_roundtrip_obj. unfold edge_of_js. cbn [props_of].
  rewrite !get_edge_roundtrip.
  cbn [get props_of js_of_edge String.eqb Ascii.eqb Bool.eqb].
  rewrite JSON_roundtrip_js_opt_str, JSON_roundtrip_js_opt_num,
    JSON_roundtrip_js_opt_bool.
  rewrite as_string_js_opt, as_number_js_opt, as_boolean_js_opt.
  reflexivity.
Qed.

Lemma items_roundtrip {A} (f : A -> jsval) (l : list A) :
  (forall a, f a <> JUndefined) ->
  items_of (JSON_roundtrip (JArr (map f l))) = map (fun a => JSON_roundtrip (f a)) l.
Proof.
  intros Hf. cbn [JSON_roundtrip items_of]. rewrite map_map. apply map_ext. intros a.
  specialize (Hf a). destruct (f a); try reflexivity. contradiction.
Qed.

(** The deep copy taken by [startSandbox]: each node and edge with its
    numbers gone through [JSON_number]. *)
Lemma JSON_copy_nodes_image (ns : list DiagramNode) :
  JSON_copy_nodes ns = map JSON_node ns.
Proof.
  unfold JSON_copy_nodes. rewrite items_roundtrip by discriminate.
  rewrite map_map. apply map_ext. exact node_of_js_roundtrip.
Qed.

Lemma JSON_copy_edges_image (es : list DiagramEdge) :
  JSON_copy_edges es = map JSON_edge es.
Proof.
  unfold JSON_copy_edges. rewrite items_roundtrip by discriminate.
  rewrite map_map. apply map_ext. exact edge_of_js_roundtrip.
Qed.

(** The copy is equal, by value, to what it copies when every number is
    finite or [null] and none is the negative zero. *)
Lemma JSON_copy_nodes_eq (ns : list DiagramNode) :
  forallb stable_node ns = true -> JSON_copy_nodes ns = ns.
Proof.
  intros H. rewrite JSON_copy_nodes_image.
  apply (map_stable JSON_node stable_node); [exact JSON_node_stable|exact H].
Qed.

Lemma JSON_copy_edges_eq (es : list DiagramEdge) :
  forallb stable_edge es = true -> JSON_copy_edges es = es.
Proof.
  intros H. rewrite JSON_copy_edges_image.
  apply (map_stable JSON_edge stable_edge); [exact JSON_edge_stable|exact H].
Qed.

Lemma mapM_NodeSchema_exported (ns : list DiagramNode) :
  mapM NodeSchema (items_of (JSON_roundtrip (JArr (map js_of_node ns))))
  = if forallb exportable_node ns
    then Some (map (fun n => schema_part (JSON_node n)) ns) else None.
Proof.
  rewrite items_roundtrip by discriminate.
  induction ns as [|n ns IH]; [reflexivity|].
  cbn [map mapM forallb]. rewrite NodeSchema_exported, IH.
  destruct (exportable_node n), (forallb exportable_node ns); reflexivity.
Qed.

Lemma mapM_EdgeSchema_exported (es : list DiagramEdge) :
  mapM EdgeSchema (items_of (JSON_roundtrip (JArr (map js_of_edge es))))
  = if forallb exportable_edge es then Some (map JSON_edge es) else None.
Proof.
  rewrite items_roundtrip by discriminate.
  induction es as [|e es IH]; [reflexivity|].
  cbn [map mapM forallb]. rewrite EdgeSchema_exported, IH.
  destruct (exportable_edge e), (forallb exportable_edge es); reflexivity.
Qed.

(** The exported document passes [DiagramSchema] exactly when the declared
    numbers of the stored graph are finite; the data it yields are then the
    declared keys of each node's copy and the copies of the edges. *)
Lemma DiagramSchema_exported (s : Store) :
  DiagramSchema (exportDiagram s)
  = if exportable s
    then Some (map (fun n => schema_part (JSON_node n)) (nodes s),
               map JSON_edge (edges s))
    else None.
Proof.
  unfold exportDiagram, DiagramSchema. rewrite JSON_roundtrip_obj.
  cbn [props_roundtrip get String.eqb Ascii.eqb Bool.eqb].
  unfold z_array.
  change (mapM NodeSchema (items_of (JSON_roundtrip (JArr (map js_of_node (nodes s)))))
            ≫= (fun nodes_ =>
                  mapM EdgeSchema
                    (items_of (JSON_roundtrip (JArr (map js_of_edge (edges s)))))
                    ≫= fun edges_ => Some (nodes_, edges_))
          = if exportable s
            then Some (map (fun n => schema_part (JSON_node n)) (nodes s),
                       map JSON_edge (edges s))
            else None).
  rewrite mapM_NodeSchema_exported, mapM_EdgeSchema_exported. unfold exportable.
  destruct (forallb exportable_node (nodes s)), (forallb exportable_edge (edges s));
    reflexivity.
Qed.

(** ** C8: export then load *)

(** The claim at a store: loading what the store exports succeeds and gives
    the same node identifiers and labels and the same edge identifiers,
    labels and ends. *)
Definition round_trip_identical (s : Store) : Prop :=
  snd (loadDiagram (exportDiagram s) s) = Loaded
  /\ map id (nodes (fst (loadDiagram (exportDiagram s) s))) = map id (nodes s)
  /\ map label (nodes (fst (loadDiagram (exportDiagram s) s))) = map label (nodes s)
  /\ map edge_id (edges (fst (loadDiagram (exportDiagram s) s))) = map edge_id (edges s)
  /\ map edge_label (edges (fst (loadDiagram (exportDiagram s) s)))
     = map edge_label (edges s)
  /\ map source (edges (fst (loadDiagram (exportDiagram s) s))) = map source (edges s)
  /\ map target (edges (fst (loadDiagram (exportDiagram s) s))) = map target (edges s).

(** A node whose effective ownership is the positive infinity, as
    [loadFlatEntityList] stores it for a stake of [1e308], or
    [loadDiagram] for a payload that carries the number. *)
Definition node_at_infinity : DiagramNode :=
  {| id := "a"; label := "a"; color := None; entityType := None;
     jurisdiction := None; taxId := None; officers := None;
     filingDueDate := None; isDraft := None; taxResidency := None;
     localCurrency := None; citRate := None;
     effectiveOwnership := Some (Num infinity);
     status := None; region := None; pillarTwoStatus := None;
     dimension := None; parentId := None; ownershipPercentage := None |}.

(** C8, counterexample.  A node whose label is the empty string (a label
    field cleared in the side drawer) comes back labelled with its
    identifier.  And a node that conforms to the schema with an infinite
    number is exported with [null] in its place, which the schema refuses:
    the load of the exported document is rejected and the loading store
    keeps its graph. *)
Lemma round_trip_relabels_empty_label :
  (map label (nodes (store_of [plain_node "a" ""] [])) = [""]
   /\ map label (nodes (fst (loadDiagram
                               (exportDiagram (store_of [plain_node "a" ""] []))
                               (store_of [plain_node "a" ""] [])))) = ["a"]
   /\ ~ round_trip_identical (store_of [plain_node "a" ""] []))
  /\ (NodeSchema (js_of_node node_at_infinity) = Some node_at_infinity
      /\ get "effectiveOwnership"
           (props_of (JSON_roundtrip (js_of_node node_at_infinity))) = JNull
      /\ DiagramSchema (exportDiagram (store_of [node_at_infinity] [])) = None
      /\ loadDiagram (exportDiagram (store_of [node_at_infinity] [])) store_ABC
         = (store_ABC,
            Rejected "Invalid JSON format. Please check the console for details.")
      /\ ~ round_trip_identical (store_of [node_at_infinity] [])).
Proof.
  split.
  - split; [reflexivity|]. split; [reflexivity|].
    intros (_ & _ & H & _). discriminate.
  - split; [reflexivity|]. split; [reflexivity|]. split; [reflexivity|].
    split; [reflexivity|]. intros (H & _). discriminate.
Qed.

(** What [loadDiagram] makes of a node of the exported document. *)
Definition reloaded (n : DiagramNode) : DiagramNode :=
  set_dimension {| width := Num 200; height := Num 90 |}
    (set_label (str_or (label n) (id n)) (schema_part (JSON_node n))).

(** A load of the exported document is rejected, and changes nothing, when a
    declared number of the stored graph is [NaN], infinite or [null]. *)
Lemma export_load_rejected (s s0 : Store) :
  exportable s = false ->
  loadDiagram (exportDiagram s) s0
  = (s0, Rejected "Invalid JSON format. Please check the console for details.").
Proof.
  intros H. unfold loadDiagram. rewrite DiagramSchema_exported, H. reflexivity.
Qed.

(** C8 (amended): for every stored graph whose declared numbers ([citRate]
    and [effectiveOwnership] of a node, [ownershipPercentage] of an edge) are
    finite, and whatever the store that loads it, loading the exported
    document succeeds; the loaded graph has the same node identifiers in the
    same order, the same edges (identifier, label, source, target, draft
    flag, and percentage but for a negative zero, which comes back as zero),
    and the same node labels except that a node whose label is the empty
    string is labelled with its identifier.  Effective-ownership values come
    back as exported, a negative zero as zero. *)
Theorem export_load_round_trip (s s0 : Store) (Hfinite : exportable s = true) :
  snd (loadDiagram (exportDiagram s) s0) = Loaded
  /\ nodes (fst (loadDiagram (exportDiagram s) s0)) = map reloaded (nodes s)
  /\ map id (nodes (fst (loadDiagram (exportDiagram s) s0))) = map id (nodes s)
  /\ map label (nodes (fst (loadDiagram (exportDiagram s) s0)))
     = map (fun n => if String.eqb (label n) "" then id n else label n) (nodes s)
  /\ map effectiveOwnership (nodes (fst (loadDiagram (exportDiagram s) s0)))
     = map (fun n => JSON_number <$> effectiveOwnership n) (nodes s)
  /\ edges (fst (loadDiagram (exportDiagram s) s0)) = map JSON_edge (edges s)
  /\ map edge_id (edges (fst (loadDiagram (exportDiagram s) s0))) = map edge_id (edges s)
  /\ map edge_label (edges (fst (loadDiagram (exportDiagram s) s0)))
     = map edge_label (edges s)
  /\ map source (edges (fst (loadDiagram (exportDiagram s) s0))) = map source (edges s)
  /\ map target (edges (fst (loadDiagram (exportDiagram s) s0))) = map target (edges s)
  /\ (forallb stable_node (nodes s) = true ->
      map effectiveOwnership (nodes (fst (loadDiagram (exportDiagram s) s0)))
      = map effectiveOwnership (nodes s))
  /\ (forallb stable_edge (edges s) = true ->
      edges (fst (loadDiagram (exportDiagram s) s0)) = edges s).
Proof.
  unfold loadDiagram. rewrite DiagramSchema_exported, Hfinite.
  cbn [fst snd nodes edges]. rewrite !map_map.
  split; [reflexivity|]. split; [reflexivity|]. split; [reflexivity|].
  split.
  { apply map_ext. intros n. simpl. unfold str_or, truthy.
    destruct (String.eqb (label n) ""); reflexivity. }
  split; [reflexivity|]. split; [reflexivity|].
  split; [reflexivity|]. split; [reflexivity|].
  split; [reflexivity|]. split; [reflexivity|]. split.
  - intros Hstable. rewrite <- (map_map JSON_node (fun n => effectiveOwnership
      (set_dimension {| width := Num 200; height := Num 90 |}
         (set_label (str_or (label n) (id n)) (schema_part n))))).
    rewrite (map_stable JSON_node stable_node (nodes s) JSON_node_stable Hstable).
    reflexivity.
  - apply (map_stable JSON_edge stable_edge); exact JSON_edge_stable.
Qed.

Lemma export_load_round_trip_witness :
  exportable store_ABC = true
  /\ snd (loadDiagram (exportDiagram store_ABC) (store_of [] [])) = Loaded
  /\ map id (nodes (fst (loadDiagram (exportDiagram store_ABC) (store_of [] []))))
     = ["A"; "B"; "C"].
Proof.
  split; [reflexivity|].
  pose proof (export_load_round_trip store_ABC (store_of [] []) eq_refl)
    as (Hl & _ & Hid & _).
  split; [exact Hl|exact Hid].
Defined.

(** ** The sandbox on values *)

(** The edits the claim runs between [startSandbox] and [discardSandbox]. *)
Inductive SandboxEdit :=
| AddNode (node : DiagramNode)
| UpdateNode (id0 : string) (partial : PartialNode)
| RemoveNode (id0 : string).

Definition apply_edit (s : Store) (e : SandboxEdit) : Store :=
  match e with
  | AddNode node => addNode node s
  | UpdateNode id0 partial => updateNode id0 partial s
  | RemoveNode id0 => removeNode id0 s
  end.

(** The edits in order, first to last. *)
Definition apply_edits (edits : list SandboxEdit) (s : Store) : Store :=
  fold_left apply_edit edits s.

Lemma apply_edits_keep_snapshot (edits : list SandboxEdit) (s : Store) :
  sandboxMode (apply_edits edits s) = sandboxMode s
  /\ originalState (apply_edits edits s) = originalState s.
Proof.
  unfold apply_edits. revert s.
  induction edits as [|e edits IH]; intros s; [split; reflexivity|].
  simpl. destruct (IH (apply_edit s e)) as [-> ->].
  destruct e; split; reflexivity.
Qed.

(** The round trip on values: no edit writes the snapshot, so
    [discardSandbox] puts back the JSON copies that [startSandbox] took,
    which are the nodes and edges of before when their numbers are finite or
    [null] and none is the negative zero.  Object identity is out of sight
    here; the round trip on references is [sandbox_round_trip] below. *)
Lemma sandbox_discard_restores_values (s : Store) (edits : list SandboxEdit) :
  sandboxMode s = false ->
  nodes (discardSandbox (apply_edits edits (startSandbox s))) = map JSON_node (nodes s)
  /\ edges (discardSandbox (apply_edits edits (startSandbox s)))
     = map JSON_edge (edges s)
  /\ (forallb stable_node (nodes s) = true ->
      nodes (discardSandbox (apply_edits edits (startSandbox s))) = nodes s)
  /\ (forallb stable_edge (edges s) = true ->
      edges (discardSandbox (apply_edits edits (startSandbox s))) = edges s)
  /\ sandboxMode (discardSandbox (apply_edits edits (startSandbox s))) = false
  /\ originalState (discardSandbox (apply_edits edits (startSandbox s))) = None.
Proof.
  intros Hlive.
  destruct (apply_edits_keep_snapshot edits (startSandbox s)) as [Hmode Hsnap].
  assert (Hstart_mode : sandboxMode (startSandbox s) = true)
    by (unfold startSandbox; rewrite Hlive; reflexivity).
  assert (Hstart_snap : originalState (startSandbox s)
                        = Some (map JSON_node (nodes s), map JSON_edge (edges s))).
  { unfold startSandbox. rewrite Hlive. cbn [originalState].
    rewrite JSON_copy_nodes_image, JSON_copy_edges_image. reflexivity. }
  rewrite Hstart_mode in Hmode. rewrite Hstart_snap in Hsnap.
  unfold discardSandbox. rewrite Hmode, Hsnap. cbn [negb nodes edges].
  split; [reflexivity|]. split; [reflexivity|]. split.
  { apply (map_stable JSON_node stable_node); exact JSON_node_stable. }
  split.
  { apply (map_stable JSON_edge stable_edge); exact JSON_edge_stable. }
  split; reflexivity.
Qed.

(** ** Ownership propagation: paths *)

Lemma flat_map_ext_In {A B} (f g : A -> list B) (l : list A) :
  (forall a, In a l -> f a = g a) -> flat_map f l = flat_map g l.
Proof.
  intros H. rewrite !flat_map_concat_map. f_equal. apply map_ext_in. exact H.
Qed.

Section OwnershipPaths.

Variable es : list DiagramEdge.

(** [chain s p t]: [p] is a path from [s] to [t], a non-empty sequence of
    edges of [es] in which each edge starts where the one before it ends. *)
Inductive chain : string -> list DiagramEdge -> string -> Prop :=
| chain_one e : In e es -> chain (source e) [e] (target e)
| chain_cons e p t : In e es -> chain (target e) p t -> chain (source e) (e :: p) t.

(** The edge set is acyclic when no path leads from an identifier back to
    itself. *)
Definition acyclic : Prop := forall x p, ~ chain x p x.

(** A ranking that grows along every edge rules cycles out. *)
Lemma ranked_acyclic (rank : string -> nat) :
  (forall e, In e es -> (rank (source e) < rank (target e))%nat) -> acyclic.
Proof.
  intros Hrank.
  assert (Hlt : forall s p t, chain s p t -> (rank s < rank t)%nat).
  { induction 1 as [e He|e p t He _ IH].
    - apply Hrank. exact He.
    - specialize (Hrank e He). lia. }
  intros x p Hc. apply Hlt in Hc. lia.
Qed.

Lemma chain_edges s p t : chain s p t -> forall e, In e p -> In e es.
Proof.
  induction 1 as [e0 He0|e0 p t He0 _ IH]; intros e [<-|Hin]; auto.
  destruct Hin.
Qed.

(** An edge of a path either starts the path or is reached by a shorter
    path. *)
Lemma chain_reaches_source s p t e :
  chain s p t -> In e p -> source e = s \/ exists p1, chain s p1 (source e).
Proof.
  induction 1 as [e0 He0|e0 p t He0 Hc IH]; intros Hin.
  - destruct Hin as [<-|[]]. left. reflexivity.
  - destruct Hin as [<-|Hin]; [left; reflexivity|].
    right. destruct (IH Hin) as [Heq|[p1 Hp1]].
    + exists [e0]. rewrite Heq. apply chain_one. exact He0.
    + exists (e0 :: p1). apply chain_cons; assumption.
Qed.

(** On an acyclic edge set a path never leaves the same identifier twice. *)
Lemma chain_sources_NoDup s p t :
  acyclic -> chain s p t -> NoDup (map source p).
Proof.
  intros Hacyc. induction 1 as [e He|e p t He Hc IH]; simpl.
  - apply NoDup_singleton.
  - apply NoDup_cons. split; [|exact IH].
    rewrite list_elem_of_In. intros (e' & Hsrc & Hin)%in_map_iff.
    destruct (chain_reaches_source _ _ _ e' Hc Hin) as [Heq|[p1 Hp1]].
    + apply (Hacyc (source e) [e]).
      rewrite <- Hsrc at 2. rewrite Heq. apply chain_one. exact He.
    + apply (Hacyc (source e) (e :: p1)).
      apply chain_cons; [exact He|]. rewrite <- Hsrc. exact Hp1.
Qed.

(** Hence no path is longer than the edge list. *)
Lemma chain_length_bound s p t :
  acyclic -> chain s p t -> (length p <= length es)%nat.
Proof.
  intros Hacyc Hc.
  rewrite <- (length_map source p), <- (length_map source es).
  apply List.NoDup_incl_length.
  - apply NoDup_ListNoDup. eapply chain_sources_NoDup; eassumption.
  - intros x (e & <- & Hin)%in_map_iff. apply in_map.
    eapply chain_edges; eassumption.
Qed.

(** The edges that leave [s]: [edges.filter(e => e.source === s)]. *)
Definition childrenEdges (s : string) : list DiagramEdge :=
  List.filter (fun e => String.eqb (source e) s) es.

(** All paths of at most [d] edges that leave [s], in the order in which the
    depth-first walk of [propagateOwnership] meets them. *)
Fixpoint paths_from (d : nat) (s : string) : list (list DiagramEdge) :=
  match d with
  | O => []
  | S d' =>
      flat_map (fun e => [e] :: map (cons e) (paths_from d' (target e)))
               (childrenEdges s)
  end.

(** Where a path ends: the target of its last edge. *)
Definition path_end (p : list DiagramEdge) : string :=
  match List.last (map Some p) None with
  | Some e => target e
  | None => ""
  end.

Lemma path_end_cons e e' p : path_end (e :: e' :: p) = path_end (e' :: p).
Proof. reflexivity. Qed.

Lemma chain_path_end s p t : chain s p t -> path_end p = t.
Proof.
  induction 1 as [e He|e p t He Hc IH]; [reflexivity|].
  destruct Hc; rewrite path_end_cons; exact IH.
Qed.

Lemma chain_nonempty s p t : chain s p t -> p <> [].
Proof. destruct 1; discriminate. Qed.

(** [paths_from d s] lists exactly the paths of at most [d] edges from [s]. *)
Lemma paths_from_spec d s p :
  In p (paths_from d s) <-> (exists t, chain s p t) /\ (length p <= d)%nat.
Proof.
  revert s p. induction d as [|d IH]; intros s p; simpl.
  - split; [intros []|]. intros [[t Hc] Hlen].
    apply chain_nonempty in Hc. destruct p; [contradiction|simpl in Hlen; lia].
  - rewrite in_flat_map. split.
    + intros (e & He & Hin). apply filter_In in He as [He Hsrc].
      apply String.eqb_eq in Hsrc. subst s.
      destruct Hin as [<-|Hin].
      * split; [|simpl; lia]. exists (target e). apply chain_one. exact He.
      * apply in_map_iff in Hin as (q & <- & Hq). apply IH in Hq as [[t Hc] Hlen].
        split; [|simpl; lia]. exists t. apply chain_cons; assumption.
    + intros [[t Hc] Hlen]. destruct Hc as [e He|e q t He Hc].
      * exists e. split; [|left; reflexivity].
        apply filter_In. split; [exact He|apply String.eqb_refl].
      * exists e. split; [apply filter_In; split; [exact He|apply String.eqb_refl]|].
        right. apply in_map. apply IH. split; [exists t; exact Hc|simpl in Hlen; lia].
Qed.

(** Past the length of the longest path the enumeration no longer grows. *)
Lemma paths_from_stable d k s :
  (forall p t, chain s p t -> (length p <= d)%nat) ->
  paths_from (d + k) s = paths_from d s.
Proof.
  revert s. induction d as [|d IH]; intros s Hbound.
  - assert (Hnone : childrenEdges s = []).
    { destruct (childrenEdges s) as [|e l] eqn:E; [reflexivity|].
      assert (He : In e (childrenEdges s)) by (rewrite E; left; reflexivity).
      apply filter_In in He as [He Hsrc]. apply String.eqb_eq in Hsrc. subst s.
      specialize (Hbound [e] (target e) (chain_one e He)). simpl in Hbound. lia. }
    destruct k; simpl; [reflexivity|]. rewrite Hnone. reflexivity.
  - simpl. apply flat_map_ext_In. intros e He. f_equal. f_equal.
    apply filter_In in He as [He Hsrc]. apply String.eqb_eq in Hsrc. subst s.
    apply IH. intros p t Hc.
    specialize (Hbound (e :: p) t (chain_cons e p t He Hc)). simpl in Hbound. lia.
Qed.

(** With distinct edges, the enumeration lists no path twice. *)
Lemma paths_from_NoDup d s : NoDup es -> NoDup (paths_from d s).
Proof.
  intros Hes.
  assert (Hch : forall s, NoDup (childrenEdges s)).
  { intros s0. unfold childrenEdges. clear -Hes.
    induction Hes as [|e l Hnin Hnd IH]; simpl; [constructor|].
    destruct (String.eqb (source e) s0); [|exact IH].
    constructor; [|exact IH].
    rewrite list_elem_of_In, filter_In. rewrite list_elem_of_In in Hnin. tauto. }
  assert (Hne : forall d s, ~ In [] (paths_from d s)).
  { intros d0 s0 Hin. apply paths_from_spec in Hin as [[t Hc] _].
    exact (chain_nonempty _ _ _ Hc eq_refl). }
  revert s. induction d as [|d IH]; intros s; simpl; [constructor|].
  specialize (Hch s). induction Hch as [|e l Hnin Hnd IHl]; simpl; [constructor|].
  rewrite list_elem_of_In in Hnin.
  assert (Hhead : forall p, In p (flat_map (fun e0 => [e0] :: map (cons e0)
                                              (paths_from d (target e0))) l) ->
                            exists e' q, p = e' :: q /\ In e' l).
  { intros p (e' & He' & Hin)%in_flat_map.
    destruct Hin as [<-|(q & <- & _)%in_map_iff]; eauto. }
  constructor.
  - rewrite list_elem_of_In, in_app_iff, in_map_iff.
    intros [(q & Heq & Hq)|Hin].
    + injection Heq as ->. exact (Hne _ _ Hq).
    + apply Hhead in Hin as (e' & q & Heq & He'). injection Heq as <- _.
      exact (Hnin He').
  - apply NoDup_app. split; [|split; [|exact IHl]].
    + apply (NoDup_fmap_2 (cons e)), IH.
    + intros p Hp Hp'. rewrite list_elem_of_In in Hp, Hp'.
      apply in_map_iff in Hp as (q & <- & _).
      apply Hhead in Hp' as (e' & q' & Heq & He'). injection Heq as <- _.
      exact (Hnin He').
Qed.

End OwnershipPaths.

(** ** Ownership propagation: the trace of the recursion *)

Lemma find_node_alter (f : DiagramNode -> DiagramNode) (x : string) (i : nat)
    (ns : list DiagramNode) :
  (forall n, id (f n) = id n) -> find_node x (alter f i ns) = find_node x ns.
Proof.
  intros Hf. revert i. induction ns as [|n ns IH]; intros i; [reflexivity|].
  destruct i as [|i]; simpl.
  - rewrite Hf. reflexivity.
  - destruct (String.eqb (id n) x); [reflexivity|]. f_equal. apply IH.
Qed.

Lemma map_id_alter (f : DiagramNode -> DiagramNode) (i : nat) (ns : list DiagramNode) :
  (forall n, id (f n) = id n) -> map id (alter f i ns) = map id ns.
Proof.
  intros Hf. revert i. induction ns as [|n ns IH]; intros i; [reflexivity|].
  destruct i as [|i]; simpl.
  - rewrite Hf. reflexivity.
  - f_equal. apply IH.
Qed.

Lemma find_node_present (x : string) (ns : list DiagramNode) :
  In x (map id ns) -> exists i, find_node x ns = Some i.
Proof.
  induction ns as [|n ns IH]; simpl; [intros []|].
  intros Hin. destruct (String.eqb_spec (id n) x) as [_|Hne]; [eauto|].
  destruct Hin as [Heq|Hin]; [contradiction|].
  destruct (IH Hin) as [i ->]. eauto.
Qed.

Lemma find_node_lookup (x : string) (ns : list DiagramNode) (i : nat) :
  find_node x ns = Some i -> exists n, ns !! i = Some n /\ id n = x.
Proof.
  revert i. induction ns as [|n ns IH]; intros i; simpl; [discriminate|].
  destruct (String.eqb_spec (id n) x) as [Heq|_].
  - intros [= <-]. eauto.
  - destruct (find_node x ns) as [j|]; [|discriminate].
    intros [= <-]. apply (IH j). reflexivity.
Qed.

(** One execution of the body of [if (childNode)]: the first node with
    identifier [x] receives [q]. *)
Definition credit (x : string) (q : float) (ns : list DiagramNode) : list DiagramNode :=
  match find_node x ns with
  | Some i => alter (add_effective q) i ns
  | None => ns
  end.

(** A sequence of such executions. *)
Definition credits (l : list (string * float)) (ns : list DiagramNode) : list DiagramNode :=
  fold_left (fun ns c => credit (fst c) (snd c) ns) l ns.

Lemma credits_app (l1 l2 : list (string * float)) (ns : list DiagramNode) :
  credits (l1 ++ l2) ns = credits l2 (credits l1 ns).
Proof. apply fold_left_app. Qed.

Lemma map_id_credit (x : string) (q : float) (ns : list DiagramNode) :
  map id (credit x q ns) = map id ns.
Proof.
  unfold credit. destruct (find_node x ns); [|reflexivity].
  apply map_id_alter. reflexivity.
Qed.

Lemma map_id_credits (l : list (string * float)) (ns : list DiagramNode) :
  map id (credits l ns) = map id ns.
Proof.
  revert ns. induction l as [|c l IH]; intros ns; [reflexivity|].
  simpl. rewrite IH. apply map_id_credit.
Qed.

Section OwnershipTrace.

Variable es : list DiagramEdge.

(** The pairs (identifier, amount) that [propagateOwnership] credits, in
    order, when the recursion from [s] with amount [a] is at most [d] deep. *)
Fixpoint contributions (d : nat) (s : string) (a : float) : list (string * float) :=
  match d with
  | O => []
  | S d' =>
      flat_map (fun e =>
                  let q := (a * directStake e / 100)%float in
                  (target e, q) :: contributions d' (target e) q)
               (childrenEdges es s)
  end.

(** Every edge points at a stored node.  [loadFlatEntityList] builds its
    edges that way. *)
Definition targets_present (ns : list DiagramNode) : Prop :=
  forall e, In e es -> In (target e) (map id ns).

Lemma targets_present_credits (l : list (string * float)) (ns : list DiagramNode) :
  targets_present ns -> targets_present (credits l ns).
Proof. intros H e He. rewrite map_id_credits. apply H. exact He. Qed.

(** The body of the [forEach] in [propagateOwnership], the recursive call
    having fuel [fuel']. *)
Definition propagate_step (fuel' : nat) (a : float)
    (acc : option (list DiagramNode)) (edge : DiagramEdge) : option (list DiagramNode) :=
  ns ← acc;
  match find_node (target edge) ns with
  | Some i =>
      propagateOwnership fuel' (target edge) (a * directStake edge / 100)%float
        (alter (add_effective (a * directStake edge / 100)%float) i ns) es
  | None => Some ns
  end.

Lemma propagateOwnership_S (fuel' : nat) (s : string) (a : float) (ns : list DiagramNode) :
  propagateOwnership (S fuel') s a ns es
  = fold_left (propagate_step fuel' a) (childrenEdges es s) (Some ns).
Proof. reflexivity. Qed.

Lemma propagate_step_found (fuel' : nat) (a : float) (ns : list DiagramNode)
    (edge : DiagramEdge) (i : nat) :
  find_node (target edge) ns = Some i ->
  propagate_step fuel' a (Some ns) edge
  = propagateOwnership fuel' (target edge) (a * directStake edge / 100)%float
      (alter (add_effective (a * directStake edge / 100)%float) i ns) es.
Proof. intros H. unfold propagate_step. simpl. rewrite H. reflexivity. Qed.

Lemma contributions_S (d : nat) (s : string) (a : float) :
  contributions (S d) s a
  = flat_map (fun e => (target e, (a * directStake e / 100)%float)
                       :: contributions d (target e) (a * directStake e / 100)%float)
             (childrenEdges es s).
Proof. reflexivity. Qed.

Lemma no_chain_no_children (s : string) :
  (forall p t, chain es s p t -> (length p <= 0)%nat) -> childrenEdges es s = [].
Proof.
  intros Hbound. destruct (childrenEdges es s) as [|e l] eqn:E; [reflexivity|].
  assert (He : In e (childrenEdges es s)) by (rewrite E; left; reflexivity).
  apply filter_In in He as [He Hsrc]. apply String.eqb_eq in Hsrc. subst s.
  specialize (Hbound [e] (target e) (chain_one es e He)). simpl in Hbound. lia.
Qed.

(** With fuel beyond the longest path from [parentId], the recursion
    returns, and what it did to the nodes is the sequence of credits
    [contributions] lists. *)
Lemma propagateOwnership_trace (f : nat) (s : string) (a : float) (ns : list DiagramNode) :
  targets_present ns ->
  (forall p t, chain es s p t -> (length p <= f)%nat) ->
  propagateOwnership (S f) s a ns es = Some (credits (contributions f s a) ns).
Proof.
  revert s a ns. induction f as [|f IH]; intros s a ns Hpres Hbound.
  - rewrite propagateOwnership_S, (no_chain_no_children s Hbound). reflexivity.
  - rewrite propagateOwnership_S, contributions_S.
    assert (Hch : forall e, In e (childrenEdges es s) -> In e es /\ source e = s).
    { intros e He. apply filter_In in He as [He Hsrc].
      apply String.eqb_eq in Hsrc. auto. }
    revert ns Hpres. induction (childrenEdges es s) as [|e l IHl]; intros ns Hpres.
    + reflexivity.
    + destruct (Hch e (or_introl eq_refl)) as [He Hsrc].
      destruct (find_node_present (target e) ns (Hpres e He)) as [i Hi].
      cbn [fold_left flat_map].
      rewrite (propagate_step_found _ _ _ _ _ Hi), IH.
      * rewrite IHl.
        -- rewrite credits_app. f_equal. f_equal.
           cbn [credits fold_left fst snd]. f_equal.
           unfold credit. rewrite Hi. reflexivity.
        -- intros e' He'. apply Hch. right. exact He'.
        -- apply targets_present_credits.
           intros e' He'. rewrite map_id_alter by reflexivity. apply Hpres. exact He'.
      * intros e' He'. rewrite map_id_alter by reflexivity. apply Hpres. exact He'.
      * intros p t Hc.
        assert (Hc' : chain es s (e :: p) t)
          by (rewrite <- Hsrc; apply chain_cons; assumption).
        specialize (Hbound _ _ Hc'). simpl in Hbound. lia.
Qed.

End OwnershipTrace.

(** ** Ownership propagation: amounts along paths *)

(** The amount the recursion carries at the end of path [p] when it enters
    the path with [a]: edge by edge, the amount times the stake, divided by
    [100], each operation rounded to binary64 as the code performs it. *)
Fixpoint amount (a : float) (p : list DiagramEdge) : float :=
  match p with
  | [] => a
  | e :: p' => amount (a * directStake e / 100)%float p'
  end.

(** The formula of the claim, read in binary64: the product of
    [stake / 100] along a path, [100] times that product, and the sum of
    such values.  Rounding makes it differ from [amount], see
    [rounding_differs_from_the_product_formula]. *)
Definition path_weight (p : list DiagramEdge) : float :=
  fold_right (fun e w => (directStake e / 100 * w)%float) 1%float p.

Definition path_value (p : list DiagramEdge) : float := (100 * path_weight p)%float.

Definition float_sum (l : list float) : float :=
  fold_right (fun x acc => (x + acc)%float) 0%float l.

Lemma map_flat_map {A B C} (f : B -> C) (g : A -> list B) (l : list A) :
  map f (flat_map g l) = flat_map (fun a => map f (g a)) l.
Proof.
  induction l as [|a l IH]; simpl; [reflexivity|].
  rewrite map_app, IH. reflexivity.
Qed.

Section OwnershipAmounts.

Variable es : list DiagramEdge.

Lemma paths_from_nonempty (d : nat) (s : string) (p : list DiagramEdge) :
  In p (paths_from es d s) -> p <> [].
Proof.
  intros Hin. apply paths_from_spec in Hin as [[t Hc] _].
  eapply chain_nonempty. exact Hc.
Qed.

(** The credits of the recursion are, path by path, the end of the path and
    the amount carried along it. *)
Lemma contributions_paths (d : nat) (s : string) (a : float) :
  contributions es d s a
  = map (fun p => (path_end p, amount a p)) (paths_from es d s).
Proof.
  revert s a. induction d as [|d IH]; intros s a; [reflexivity|].
  rewrite contributions_S. cbn [paths_from]. rewrite map_flat_map.
  apply flat_map_ext. intros e. cbn [map]. f_equal.
  rewrite IH, map_map. apply map_ext_in. intros p Hp.
  apply paths_from_nonempty in Hp. destruct p as [|e' p]; [contradiction|].
  reflexivity.
Qed.

(** The amounts credited to [x], in order. *)
Definition received (x : string) (l : list (string * float)) : list float :=
  map snd (List.filter (fun c => String.eqb (fst c) x) l).

Lemma received_app (x : string) (l1 l2 : list (string * float)) :
  received x (l1 ++ l2) = received x l1 ++ received x l2.
Proof. unfold received. rewrite List.filter_app, map_app. reflexivity. Qed.

Lemma received_none (x : string) (l : list (string * float)) :
  (forall c, In c l -> fst c <> x) -> received x l = [].
Proof.
  intros H. unfold received. induction l as [|c l IH]; simpl; [reflexivity|].
  destruct (String.eqb_spec (fst c) x) as [Heq|_].
  - exfalso. exact (H c (or_introl eq_refl) Heq).
  - apply IH. intros c' Hc'. apply H. right. exact Hc'.
Qed.

(** The paths from [s] that end at [x]. *)
Definition paths_to (d : nat) (x s : string) : list (list DiagramEdge) :=
  List.filter (fun p => String.eqb (path_end p) x) (paths_from es d s).

Lemma received_contributions (d : nat) (x s : string) (a : float) :
  received x (contributions es d s a) = map (amount a) (paths_to d x s).
Proof.
  rewrite contributions_paths. unfold received, paths_to.
  induction (paths_from es d s) as [|p l IH]; simpl; [reflexivity|].
  destruct (String.eqb (path_end p) x); simpl; rewrite IH; reflexivity.
Qed.

Lemma contributions_targets (d : nat) (s : string) (a : float) (c : string * float) :
  In c (contributions es d s a) -> exists e, In e es /\ fst c = target e.
Proof.
  rewrite contributions_paths. intros (p & <- & Hp)%in_map_iff.
  apply paths_from_spec in Hp as [[t Hc] _]. simpl.
  rewrite (chain_path_end es _ _ _ Hc). clear -Hc.
  induction Hc as [e He|e p t He Hc IH]; eauto.
Qed.

End OwnershipAmounts.

(** ** Ownership propagation: what each node ends with *)

(** A node with its [effectiveOwnership] property replaced. *)
Definition with_effectiveOwnership (o : option number) (n : DiagramNode) : DiagramNode :=
  {| id := id n; label := label n; color := color n;
     entityType := entityType n; jurisdiction := jurisdiction n;
     taxId := taxId n; officers := officers n;
     filingDueDate := filingDueDate n; isDraft := isDraft n;
     taxResidency := taxResidency n; localCurrency := localCurrency n;
     citRate := citRate n; effectiveOwnership := o;
     status := status n; region := region n;
     pillarTwoStatus := pillarTwoStatus n;
     dimension := dimension n;
     parentId := parentId n; ownershipPercentage := ownershipPercentage n |}.

(** The same node after a sequence of credits. *)
Definition add_all (qs : list float) (n : DiagramNode) : DiagramNode :=
  fold_left (fun n q => add_effective q n) qs n.

Lemma add_all_app (qs1 qs2 : list float) (n : DiagramNode) :
  add_all (qs1 ++ qs2) n = add_all qs2 (add_all qs1 n).
Proof. apply fold_left_app. Qed.

Lemma id_add_all (qs : list float) (n : DiagramNode) : id (add_all qs n) = id n.
Proof.
  revert n. induction qs as [|q qs IH]; intros n; [reflexivity|].
  simpl. rewrite IH. reflexivity.
Qed.

(** What a sequence of credits makes of an [effectiveOwnership] property:
    each credit is added to the running value, [x || 0] being taken of the
    running value first, so that an absent, [null], [NaN] or zero running
    value counts as [0]. *)
Definition credited (v : option number) (qs : list float) : option number :=
  fold_left (fun v q => Some (Num (num_or_0 v + q)%float)) qs v.

Lemma credited_app (v : option number) (qs1 qs2 : list float) :
  credited v (qs1 ++ qs2) = credited (credited v qs1) qs2.
Proof. apply fold_left_app. Qed.

Lemma with_effectiveOwnership_same (n : DiagramNode) :
  with_effectiveOwnership (effectiveOwnership n) n = n.
Proof. destruct n; reflexivity. Qed.

(** Credits touch [effectiveOwnership] and nothing else. *)
Lemma add_all_value (qs : list float) (n : DiagramNode) :
  add_all qs n = with_effectiveOwnership (credited (effectiveOwnership n) qs) n.
Proof.
  revert n. induction qs as [|q qs IH]; intros n.
  - symmetry. apply with_effectiveOwnership_same.
  - cbn [add_all fold_left credited]. fold (add_all qs (add_effective q n)).
    rewrite IH. reflexivity.
Qed.

Lemma credit_lookup (x : string) (q : float) (ns : list DiagramNode) (i : nat)
    (n : DiagramNode) :
  ns !! i = Some n ->
  credit x q ns !! i
  = Some (if bool_decide (find_node x ns = Some i) then add_effective q n else n).
Proof.
  intros Hn. unfold credit. destruct (find_node x ns) as [j|] eqn:Hj.
  - destruct (decide (j = i)) as [->|Hne].
    + rewrite bool_decide_eq_true_2 by reflexivity.
      rewrite list_lookup_alter_eq, Hn. reflexivity.
    + rewrite bool_decide_eq_false_2 by congruence.
      rewrite list_lookup_alter_ne by exact Hne. exact Hn.
  - rewrite bool_decide_eq_false_2 by discriminate. exact Hn.
Qed.

Lemma find_node_credit (y x : string) (q : float) (ns : list DiagramNode) :
  find_node y (credit x q ns) = find_node y ns.
Proof.
  unfold credit. destruct (find_node x ns); [|reflexivity].
  apply find_node_alter. reflexivity.
Qed.

(** After a sequence of credits, the first node with an identifier has
    received every credit addressed to that identifier, and a node that is
    not the first with its identifier has received nothing. *)
Lemma credits_lookup (l : list (string * float)) (ns : list DiagramNode) (i : nat)
    (n : DiagramNode) :
  ns !! i = Some n ->
  credits l ns !! i
  = Some (if bool_decide (find_node (id n) ns = Some i)
          then add_all (received (id n) l) n else n).
Proof.
  revert ns n. induction l as [|[x q] l IH]; intros ns n Hn.
  - simpl. rewrite Hn. destruct (bool_decide _); reflexivity.
  - cbn [credits fold_left fst snd]. fold (credits l (credit x q ns)).
    pose proof (credit_lookup x q ns i n Hn) as Hstep.
    rewrite (IH _ _ Hstep). f_equal.
    assert (Hid : id (if bool_decide (find_node x ns = Some i)
                      then add_effective q n else n) = id n)
      by (destruct (bool_decide _); reflexivity).
    rewrite Hid, find_node_credit.
    unfold received. cbn [List.filter fst].
    destruct (decide (find_node (id n) ns = Some i)) as [Hfirst|Hnot].
    + rewrite (bool_decide_eq_true_2 _ Hfirst).
      destruct (String.eqb_spec x (id n)) as [->|Hne].
      * rewrite (bool_decide_eq_true_2 _ Hfirst). reflexivity.
      * rewrite bool_decide_eq_false_2; [reflexivity|].
        intros Hx. apply find_node_lookup in Hx as (n' & Hn' & Hid').
        rewrite Hn in Hn'. injection Hn' as <-. exact (Hne (eq_sym Hid')).
    + rewrite (bool_decide_eq_false_2 _ Hnot).
      rewrite bool_decide_eq_false_2; [reflexivity|].
      intros Hx. pose proof Hx as Hx'.
      apply find_node_lookup in Hx' as (n' & Hn' & Hid').
      rewrite Hn in Hn'. injection Hn' as <-. rewrite Hid' in Hnot. exact (Hnot Hx).
Qed.

Section OwnershipResult.

Variable es : list DiagramEdge.

Lemma is_root_true (n : DiagramNode) :
  is_root es n = true <-> forall e, In e es -> target e <> id n.
Proof.
  unfold is_root. rewrite negb_true_iff, <- not_true_iff_false, existsb_exists.
  split.
  - intros H e He Heq. apply H. exists e. split; [exact He|].
    apply String.eqb_eq. exact Heq.
  - intros H (e & He & Heq). apply String.eqb_eq in Heq. exact (H e He Heq).
Qed.

Lemma root_positions_in (base : nat) (ns : list DiagramNode) (r : nat * string) :
  In r (root_positions es base ns) ->
  exists j n, fst r = (base + j)%nat /\ ns !! j = Some n
              /\ is_root es n = true /\ snd r = id n.
Proof.
  revert base. induction ns as [|n ns IH]; intros base; simpl; [intros []|].
  intros [Hin|Hin]%in_app_iff.
  - destruct (is_root es n) eqn:Hroot; [|destruct Hin].
    destruct Hin as [<-|[]]. exists 0%nat, n. simpl.
    repeat split; [lia|exact Hroot].
  - destruct (IH _ Hin) as (j & n' & Hj & Hn' & Hroot & Hid).
    exists (S j), n'. repeat split; [lia|exact Hn'|exact Hroot|exact Hid].
Qed.

Lemma root_positions_root (base j : nat) (ns : list DiagramNode) (n : DiagramNode) :
  ns !! j = Some n -> is_root es n = true ->
  In (base + j)%nat (map fst (root_positions es base ns)).
Proof.
  revert base j. induction ns as [|m ns IH]; intros base j; [discriminate|].
  simpl. rewrite map_app, in_app_iff. destruct j as [|j]; simpl.
  - intros [= ->] ->. left. left. simpl. lia.
  - intros Hn Hroot. right. replace (base + S j)%nat with (S base + j)%nat by lia.
    apply IH; assumption.
Qed.

Lemma root_positions_not_root (base j : nat) (ns : list DiagramNode) (n : DiagramNode) :
  ns !! j = Some n -> is_root es n = false ->
  ~ In (base + j)%nat (map fst (root_positions es base ns)).
Proof.
  intros Hn Hroot (r & Hfst & Hin)%in_map_iff.
  apply root_positions_in in Hin as (j' & n' & Hj' & Hn' & Hroot' & _).
  assert (j' = j) by lia. subst j'. rewrite Hn in Hn'. injection Hn' as <-.
  congruence.
Qed.

(** What [roots.forEach] does for one root: the assignment of [100], then
    the credits of the recursion from that root. *)
Definition root_step (d : nat) (ns : list DiagramNode) (r : nat * string)
    : list DiagramNode :=
  credits (contributions es d (snd r) 100)
          (alter (set_effectiveOwnership 100) (fst r) ns).

Lemma map_id_root_step (d : nat) (ns : list DiagramNode) (r : nat * string) :
  map id (root_step d ns r) = map id ns.
Proof.
  unfold root_step. rewrite map_id_credits. apply map_id_alter. reflexivity.
Qed.

(** With fuel beyond the longest path, [calculateEffectiveOwnership]
    returns, whatever the list of roots it walks. *)
Lemma calculate_trace (f : nat) (roots : list (nat * string)) (ns : list DiagramNode) :
  targets_present es ns ->
  (forall s p t, chain es s p t -> (length p <= f)%nat) ->
  fold_left
    (fun acc root =>
       ns ← acc;
       propagateOwnership (S f) (snd root) 100
         (alter (set_effectiveOwnership 100) (fst root) ns) es)
    roots (Some ns)
  = Some (fold_left (root_step f) roots ns).
Proof.
  intros Hpres Hbound. revert ns Hpres.
  induction roots as [|r roots IH]; intros ns Hpres; [reflexivity|].
  cbn [fold_left mbind option_bind].
  rewrite propagateOwnership_trace.
  - apply IH. intros e He. rewrite map_id_root_step. apply Hpres. exact He.
  - intros e He. rewrite map_id_alter by reflexivity. apply Hpres. exact He.
  - apply Hbound.
Qed.

(** The credits of all the roots, in order. *)
Definition all_contributions (d : nat) (roots : list (nat * string)) : list (string * float) :=
  flat_map (fun r => contributions es d (snd r) 100) roots.

(** A node that is not a root: the first node with its identifier has
    received every credit addressed to the identifier, any other is as it
    was. *)
Lemma roots_lookup_other (d : nat) (roots : list (nat * string))
    (ns : list DiagramNode) (i : nat) (n : DiagramNode) :
  ns !! i = Some n ->
  ~ In i (map fst roots) ->
  fold_left (root_step d) roots ns !! i
  = Some (if bool_decide (find_node (id n) ns = Some i)
          then add_all (received (id n) (all_contributions d roots)) n else n).
Proof.
  revert ns n. induction roots as [|r roots IH]; intros ns n Hn Hnot.
  - simpl. rewrite Hn. destruct (bool_decide _); reflexivity.
  - cbn [fold_left all_contributions flat_map].
    assert (Hne : fst r <> i) by (intros Heq; apply Hnot; left; exact Heq).
    assert (Hstep : root_step d ns r !! i
                    = Some (if bool_decide (find_node (id n) ns = Some i)
                            then add_all (received (id n) (contributions es d (snd r) 100)) n
                            else n)).
    { unfold root_step. erewrite credits_lookup.
      - rewrite find_node_alter by reflexivity. reflexivity.
      - rewrite list_lookup_alter_ne by exact Hne. exact Hn. }
    rewrite (IH _ _ Hstep) by (intros Hin; apply Hnot; right; exact Hin).
    assert (Hfind : forall y, find_node y (root_step d ns r) = find_node y ns).
    { intros y. unfold root_step.
      assert (Hids : forall l ms, find_node y (credits l ms) = find_node y ms).
      { induction l as [|c l IHl]; intros ms; [reflexivity|].
        cbn [credits fold_left]. fold (credits l (credit (fst c) (snd c) ms)).
        rewrite IHl. apply find_node_credit. }
      rewrite Hids. apply find_node_alter. reflexivity. }
    destruct (bool_decide (find_node (id n) ns = Some i)) eqn:Hfirst.
    + rewrite id_add_all, Hfind, Hfirst, received_app, add_all_app. reflexivity.
    + rewrite Hfind, Hfirst. reflexivity.
Qed.

(** A root: it holds [100] and nothing else has been added, since no edge
    points at it. *)
Lemma roots_lookup_root (d : nat) (roots : list (nat * string))
    (ns : list DiagramNode) (i : nat) (n : DiagramNode) :
  ns !! i = Some n ->
  In i (map fst roots) ->
  is_root es n = true ->
  fold_left (root_step d) roots ns !! i = Some (with_effectiveOwnership (Some (Num 100)) n).
Proof.
  intros Hn Hin Hroot.
  assert (Hquiet : forall s a l, received (id n) (contributions es d s a ++ l)
                                 = received (id n) l).
  { intros s a l. rewrite received_app, received_none; [reflexivity|].
    intros c Hc Heq. apply contributions_targets in Hc as (e & He & Hfst).
    apply (proj1 (is_root_true n) Hroot e He). congruence. }
  assert (Hsilent : forall rs, received (id n) (all_contributions d rs) = []).
  { induction rs as [|r rs IHrs]; [reflexivity|].
    cbn [all_contributions flat_map]. rewrite Hquiet. exact IHrs. }
  revert ns n Hn Hin Hroot Hquiet Hsilent.
  induction roots as [|r roots IH]; intros ns n Hn Hin Hroot Hquiet Hsilent;
    [destruct Hin|].
  cbn [fold_left].
  assert (Hstep : root_step d ns r !! i
                  = Some (if decide (fst r = i)
                          then with_effectiveOwnership (Some (Num 100)) n else n)).
  { unfold root_step. destruct (decide (fst r = i)) as [Heq|Hne].
    - erewrite credits_lookup
        by (rewrite Heq, list_lookup_alter_eq, Hn; reflexivity).
      cbn [id set_effectiveOwnership].
      rewrite <- (app_nil_r (contributions es d (snd r) 100)), Hquiet.
      destruct (bool_decide _); reflexivity.
    - erewrite credits_lookup
        by (rewrite list_lookup_alter_ne by exact Hne; exact Hn).
      rewrite <- (app_nil_r (contributions es d (snd r) 100)), Hquiet.
      destruct (bool_decide _); reflexivity. }
  destruct (in_dec Nat.eq_dec i (map fst roots)) as [Hlater|Hlast].
  - destruct (decide (fst r = i)).
    + rewrite (IH _ _ Hstep Hlater); [reflexivity|exact Hroot|exact Hquiet|exact Hsilent].
    + apply (IH _ _ Hstep Hlater); assumption.
  - destruct Hin as [Heq|Hin]; [|contradiction].
    destruct (decide (fst r = i)) as [_|Hne]; [|contradiction].
    rewrite (roots_lookup_other d roots _ i _ Hstep Hlast).
    cbn [id with_effectiveOwnership]. rewrite Hsilent.
    destruct (bool_decide _); reflexivity.
Qed.

End OwnershipResult.

(** ** C1: effective ownership after [loadFlatEntityList] *)

(** The paths from a root to [x]: for each root node in turn, the paths from
    its identifier that end at [x].  On an acyclic edge set no path is longer
    than the edge list, see [root_paths_spec]. *)
Definition root_paths (es : list DiagramEdge) (ns : list DiagramNode) (x : string)
    : list (list DiagramEdge) :=
  flat_map (fun r => paths_to es (length es) x (snd r)) (root_positions es 0 ns).

(** The amounts that reach [x], in the order in which the code adds them:
    one per path from a root, the paths of each root in turn and in the
    depth-first order of the recursion. *)
Definition path_amounts (es : list DiagramEdge) (ns : list DiagramNode) (x : string)
    : list float :=
  map (amount 100) (root_paths es ns x).

(** The formula of the claim, read in binary64: the sum, over every path
    from a root to [x], of [100] times the product of [stake / 100] along
    the path. *)
Definition path_sum (es : list DiagramEdge) (ns : list DiagramNode) (x : string)
    : float :=
  float_sum (map path_value (root_paths es ns x)).

(** [root_paths] holds exactly the paths that lead from the identifier of a
    root node to [x]. *)
Lemma root_paths_spec (es : list DiagramEdge) (ns : list DiagramNode) (x : string)
    (p : list DiagramEdge) :
  acyclic es ->
  In p (root_paths es ns x)
  <-> exists n, In n ns /\ is_root es n = true /\ chain es (id n) p x.
Proof.
  intros Hacyc. unfold root_paths, paths_to. rewrite in_flat_map. split.
  - intros (r & Hr & Hp). apply filter_In in Hp as [Hp Hend].
    apply String.eqb_eq in Hend.
    apply root_positions_in in Hr as (j & n & _ & Hn & Hroot & Hid).
    apply paths_from_spec in Hp as [[t Hc] _].
    exists n. split; [|split; [exact Hroot|]].
    + apply list_elem_of_In. eapply list_elem_of_lookup_2. exact Hn.
    + rewrite <- Hid. rewrite (chain_path_end es _ _ _ Hc) in Hend.
      subst t. exact Hc.
  - intros (n & Hn & Hroot & Hc).
    apply list_elem_of_In, list_elem_of_lookup_1 in Hn as [j Hj].
    pose proof (root_positions_root es 0 j ns n Hj Hroot) as Hin.
    apply in_map_iff in Hin as (r & Hfst & Hr).
    exists r. split; [exact Hr|].
    apply root_positions_in in Hr as (j' & n' & Hj' & Hn' & _ & Hid).
    assert (j' = j) by (simpl in *; lia). subst j'.
    rewrite Hj in Hn'. injection Hn' as <-.
    apply filter_In. split.
    + apply paths_from_spec. split.
      * exists x. rewrite Hid. exact Hc.
      * eapply chain_length_bound; eassumption.
    + apply String.eqb_eq. eapply chain_path_end. exact Hc.
Qed.

Lemma find_node_map (f : DiagramNode -> DiagramNode) (x : string) (ns : list DiagramNode) :
  (forall n, id (f n) = id n) -> find_node x (map f ns) = find_node x ns.
Proof.
  intros Hf. induction ns as [|n ns IH]; [reflexivity|].
  simpl. rewrite Hf, IH. reflexivity.
Qed.

Lemma root_positions_map (es : list DiagramEdge) (f : DiagramNode -> DiagramNode)
    (base : nat) (ns : list DiagramNode) :
  (forall n, id (f n) = id n) ->
  root_positions es base (map f ns) = root_positions es base ns.
Proof.
  intros Hf. revert base. induction ns as [|n ns IH]; intros base; [reflexivity|].
  simpl. unfold is_root. rewrite Hf, IH. reflexivity.
Qed.

(** Every edge [loadFlatEntityList] builds points at the entity it was
    built for. *)
Lemma synthesized_targets_present (Number_toString : float -> string)
    (entities : list DiagramNode) :
  targets_present (synthesized_edges Number_toString entities) (flat_nodes entities).
Proof.
  intros e He. unfold synthesized_edges in He.
  apply in_flat_map in He as (ent & Hent & He).
  unfold flat_nodes. rewrite map_map. apply in_map_iff. exists ent.
  split; [|exact Hent].
  destruct (parentId ent) as [parent|]; [|destruct He].
  destruct (truthy parent); [|destruct He].
  destruct He as [<-|[]]. reflexivity.
Qed.

Lemma received_all_contributions (es : list DiagramEdge) (d : nat) (x : string)
    (roots : list (nat * string)) :
  received x (all_contributions es d roots)
  = map (amount 100) (flat_map (fun r => paths_to es d x (snd r)) roots).
Proof.
  induction roots as [|r roots IH]; [reflexivity|].
  cbn [all_contributions flat_map].
  rewrite received_app, map_app, received_contributions. f_equal. exact IH.
Qed.

Lemma paths_to_stable (es : list DiagramEdge) (k : nat) (x s : string) :
  acyclic es -> paths_to es (length es + k) x s = paths_to es (length es) x s.
Proof.
  intros Hacyc. unfold paths_to. rewrite paths_from_stable; [reflexivity|].
  intros p t Hc. eapply chain_length_bound; eassumption.
Qed.

Lemma map_id_roots (es : list DiagramEdge) (d : nat) (roots : list (nat * string))
    (ns : list DiagramNode) :
  map id (fold_left (root_step es d) roots ns) = map id ns.
Proof.
  revert ns. induction roots as [|r roots IH]; intros ns; [reflexivity|].
  cbn [fold_left]. rewrite IH. apply map_id_root_step.
Qed.

(** [calculateEffectiveOwnership] on any node array and any acyclic edge
    array whose edges point at stored nodes. *)
Lemma calculateEffectiveOwnership_result (es : list DiagramEdge) (ns : list DiagramNode)
    (fuel : nat) :
  acyclic es ->
  targets_present es ns ->
  (length es < fuel)%nat ->
  exists final,
    calculateEffectiveOwnership fuel ns es = Some final
    /\ length final = length ns
    /\ forall i n, ns !! i = Some n ->
         exists n',
           final !! i = Some n'
           /\ (is_root es n = true -> n' = with_effectiveOwnership (Some (Num 100)) n)
           /\ (is_root es n = false ->
               find_node (id n) ns = Some i ->
               n' = with_effectiveOwnership
                      (credited (effectiveOwnership n) (path_amounts es ns (id n))) n)
           /\ (is_root es n = false ->
               find_node (id n) ns <> Some i \/ root_paths es ns (id n) = [] ->
               n' = n).
Proof.
  intros Hacyc Hpres Hfuel.
  destruct fuel as [|f]; [lia|].
  assert (Hk : exists k, f = (length es + k)%nat) by (exists (f - length es)%nat; lia).
  destruct Hk as [k ->].
  exists (fold_left (root_step es (length es + k)) (root_positions es 0 ns) ns).
  split; [|split].
  - unfold calculateEffectiveOwnership. apply calculate_trace; [exact Hpres|].
    intros s p t Hc. pose proof (chain_length_bound es s p t Hacyc Hc). lia.
  - rewrite <- (length_map id), map_id_roots, length_map. reflexivity.
  - intros i n Hn.
    assert (Hrecv : forall x,
               received x (all_contributions es (length es + k) (root_positions es 0 ns))
               = map (amount 100) (root_paths es ns x)).
    { intros x. rewrite received_all_contributions. unfold root_paths. f_equal.
      apply flat_map_ext. intros r. apply paths_to_stable. exact Hacyc. }
    destruct (is_root es n) eqn:Hroot.
    + eexists. split.
      * apply roots_lookup_root; [exact Hn| |exact Hroot].
        apply (root_positions_root es 0 i ns n Hn Hroot).
      * split; [reflexivity|]. split; discriminate.
    + eexists. split.
      * apply roots_lookup_other; [exact Hn|].
        apply (root_positions_not_root es 0 i ns n Hn Hroot).
      * rewrite Hrecv. split; [discriminate|]. split.
        -- intros _ Hfirst. rewrite (bool_decide_eq_true_2 _ Hfirst).
           apply add_all_value.
        -- intros _ [Hnot|Hnone].
           ++ rewrite (bool_decide_eq_false_2 _ Hnot). reflexivity.
           ++ rewrite Hnone. destruct (bool_decide _); reflexivity.
Qed.

(** Two roots [P1] and [P2], and the joint venture [J] entered once under
    each parent with a stake of 50: the flat form of a node with two incoming
    edges. *)
Definition joint_venture : list DiagramNode :=
  [flat_entity "P1" None None;
   flat_entity "P2" None None;
   flat_entity "J" (Some "P1") (Some (Num 50));
   flat_entity "J" (Some "P2") (Some (Num 50))].

(** An entity whose parent reference names no entity. *)
Definition dangling_parent : list DiagramNode :=
  [flat_entity "X" (Some "Z") (Some (Num 50))].

(** Identifier and effective ownership of each node of a load result. *)
Definition effective_of (r : option Store) : list (string * option number) :=
  match r with
  | Some s' => map (fun n => (id n, effectiveOwnership n)) (nodes s')
  | None => []
  end.

(** The claim at a flat entity list, for whatever fuel lets the load
    return: each root holds [100], each other node holds the sum over the
    paths from a root to it. *)
Definition effective_ownership_as_claimed (Number_toString : float -> string)
    (entities : list DiagramNode) : Prop :=
  forall fuel s',
    loadFlatEntityList Number_toString fuel entities (store_of [] []) = Some s' ->
    forall n, In n (nodes s') ->
      (is_root (edges s') n = true -> effectiveOwnership n = Some (Num 100))
      /\ (is_root (edges s') n = false ->
          effectiveOwnership n = Some (Num (path_sum (edges s') (nodes s') (id n)))).

Lemma joint_venture_acyclic (Number_toString : float -> string) :
  acyclic (synthesized_edges Number_toString joint_venture).
Proof.
  apply (ranked_acyclic _ (fun x => if String.eqb x "J" then 1%nat else 0%nat)).
  intros e [<-|[<-|[]]]; simpl; lia.
Qed.

Lemma dangling_parent_acyclic (Number_toString : float -> string) :
  acyclic (synthesized_edges Number_toString dangling_parent).
Proof.
  apply (ranked_acyclic _ (fun x => if String.eqb x "X" then 1%nat else 0%nat)).
  intros e [<-|[]]; simpl; lia.
Qed.

(** C1, counterexample: [nodes.find] returns the first node with the
    identifier, so the second [J] is never credited although two paths worth
    [50] each lead to [J]; and where no root exists nothing is computed at
    all.  In both lists a node that is not a root ends without effective
    ownership. *)
Lemma later_duplicate_and_unreachable_get_nothing :
  (acyclic (synthesized_edges (fun _ => "50") joint_venture)
   /\ effective_of (loadFlatEntityList (fun _ => "50") 3 joint_venture (store_of [] []))
      = [("P1", Some (Num 100)); ("P2", Some (Num 100));
         ("J", Some (Num 100)); ("J", None)]
   /\ path_sum (synthesized_edges (fun _ => "50") joint_venture)
               (flat_nodes joint_venture) "J" = 100%float
   /\ ~ effective_ownership_as_claimed (fun _ => "50") joint_venture)
  /\ (acyclic (synthesized_edges (fun _ => "50") dangling_parent)
      /\ effective_of (loadFlatEntityList (fun _ => "50") 2 dangling_parent (store_of [] []))
         = [("X", None)]
      /\ ~ effective_ownership_as_claimed (fun _ => "50") dangling_parent).
Proof.
  split.
  - split; [apply joint_venture_acyclic|]. split; [reflexivity|].
    split; [vm_compute; reflexivity|].
    intros H.
    specialize (H 3%nat _ eq_refl
                  (with_effectiveOwnership None
                     (set_dimension {| width := Num 220; height := Num 100 |}
                        (flat_entity "J" (Some "P2") (Some (Num 50)))))).
    destruct H as [_ H].
    + right. right. right. left. reflexivity.
    + specialize (H eq_refl). discriminate.
  - split; [apply dangling_parent_acyclic|]. split; [reflexivity|].
    intros H.
    specialize (H 2%nat _ eq_refl
                  (set_dimension {| width := Num 220; height := Num 100 |}
                     (flat_entity "X" (Some "Z") (Some (Num 50))))).
    destruct H as [_ H].
    + left. reflexivity.
    + specialize (H eq_refl). discriminate.
Qed.

(** A chain [R -> A -> B] with a stake of [33.3] on each edge. *)
Definition thirds_chain : list DiagramNode :=
  [flat_entity "R" None None;
   flat_entity "A" (Some "R") (Some (Num 33.3));
   flat_entity "B" (Some "A") (Some (Num 33.3))].

(** The code multiplies by the stake and divides by [100] at each edge and
    rounds each time; the product formula of the claim, rounded where it is
    written, gives another binary64 value on the same chain. *)
Example rounding_differs_from_the_product_formula :
  effective_of (loadFlatEntityList (fun _ => "33.3") 3 thirds_chain (store_of [] []))
  = [("R", Some (Num 100)); ("A", Some (Num 33.3));
     ("B", Some (Num 11.088899999999999))]
  /\ path_sum (synthesized_edges (fun _ => "33.3") thirds_chain)
              (flat_nodes thirds_chain) "B" = 11.088899999999997%float
  /\ 11.088899999999999%float <> 11.088899999999997%float
  /\ ~ effective_ownership_as_claimed (fun _ => "33.3") thirds_chain.
Proof.
  assert (Hne : 11.088899999999999%float <> 11.088899999999997%float).
  { intros H.
    apply (f_equal (fun x => PrimFloat.eqb x 11.088899999999997%float)) in H.
    vm_compute in H. discriminate. }
  split; [vm_compute; reflexivity|]. split; [vm_compute; reflexivity|].
  split; [exact Hne|].
  intros H.
  specialize (H 3%nat _ eq_refl
                (with_effectiveOwnership (Some (Num 11.088899999999999))
                   (set_dimension {| width := Num 220; height := Num 100 |}
                      (flat_entity "B" (Some "A") (Some (Num 33.3)))))).
  destruct H as [_ H].
  - right. right. left. vm_compute. reflexivity.
  - specialize (H eq_refl). apply Hne.
    apply (f_equal num_or_0) in H. vm_compute in H. exact H.
Qed.

(** A root [R] and its child [X] at a stake of [1e308]: the credit of [X],
    [100 * 1e308 / 100], overflows at the multiplication. *)
Definition overflowing_stake : list DiagramNode :=
  [flat_entity "R" None None; flat_entity "X" (Some "R") (Some (Num 1e308))].

(** The code multiplies before it divides: on [overflowing_stake] the child
    is stored with [Infinity], where the formula of the claim, which divides
    the stake first, gives a finite number. *)
Example overflow_stores_infinity :
  effective_of (loadFlatEntityList (fun _ => "1e+308") 2 overflowing_stake (store_of [] []))
  = [("R", Some (Num 100)); ("X", Some (Num infinity))]
  /\ classify (path_sum (synthesized_edges (fun _ => "1e+308") overflowing_stake)
                        (flat_nodes overflowing_stake) "X") = PNormal
  /\ ~ effective_ownership_as_claimed (fun _ => "1e+308") overflowing_stake.
Proof.
  split; [vm_compute; reflexivity|]. split; [vm_compute; reflexivity|].
  intros H.
  specialize (H 2%nat _ eq_refl
                (with_effectiveOwnership (Some (Num infinity))
                   (set_dimension {| width := Num 220; height := Num 100 |}
                      (flat_entity "X" (Some "R") (Some (Num 1e308)))))).
  destruct H as [_ H].
  - right. left. vm_compute. reflexivity.
  - specialize (H eq_refl).
    apply (f_equal (fun v => classify (num_or_0 v))) in H. vm_compute in H.
    discriminate.
Qed.

(** C1 (amended): for every flat entity list whose synthesized edge set is
    acyclic, [loadFlatEntityList] returns (with any fuel beyond the number of
    edges) and stores one node per entity, in order, equal to the entity
    but for [dimension] and [effectiveOwnership]:
    - a root node (its identifier is the target of no edge) holds exactly
      [100];
    - a node that is not a root and is the first node of the list with its
      identifier holds what the credits of [path_amounts] make of the value
      the entity came with: there is one credit per path from a root to the
      node, in the depth-first order of the walk, each credit being [100]
      multiplied by the stake and divided by [100] edge by edge along the
      path (a stake being [0] when absent, [null], [NaN] or zero), and each
      credit is added to the running value, taken as [0] when it is absent,
      [null], [NaN] or zero; every operation is a binary64 operation;
    - any other node that is not a root (no path from a root reaches it, or
      an earlier node has its identifier) keeps what the entity came with,
      hence nothing when the entity had no [effectiveOwnership].
    On two roots and a joint venture entered under each at 50, the first
    node of the joint venture ends with [100]. *)
Theorem loadFlatEntityList_effective_ownership (Number_toString : float -> string)
    (entities : list DiagramNode) (s : Store) (fuel : nat)
    (Hacyclic : acyclic (synthesized_edges Number_toString entities))
    (Hfuel : (length (synthesized_edges Number_toString entities) < fuel)%nat) :
  (exists s',
     loadFlatEntityList Number_toString fuel entities s = Some s'
     /\ edges s' = synthesized_edges Number_toString entities
     /\ length (nodes s') = length entities
     /\ forall i ent, entities !! i = Some ent ->
          exists n',
            nodes s' !! i = Some n'
            /\ (is_root (edges s') ent = true ->
                n' = with_effectiveOwnership (Some (Num 100))
                       (set_dimension {| width := Num 220; height := Num 100 |} ent))
            /\ (is_root (edges s') ent = false ->
                find_node (id ent) entities = Some i ->
                n' = with_effectiveOwnership
                       (credited (effectiveOwnership ent)
                                 (path_amounts (edges s') entities (id ent)))
                       (set_dimension {| width := Num 220; height := Num 100 |} ent))
            /\ (is_root (edges s') ent = false ->
                find_node (id ent) entities <> Some i
                \/ root_paths (edges s') entities (id ent) = [] ->
                n' = set_dimension {| width := Num 220; height := Num 100 |} ent))
  /\ effective_of (loadFlatEntityList Number_toString 3 joint_venture s)
     = [("P1", Some (Num 100)); ("P2", Some (Num 100));
        ("J", Some (Num 100)); ("J", None)].
Proof.
  split; [|vm_compute; reflexivity].
  set (es := synthesized_edges Number_toString entities) in *.
  destruct (calculateEffectiveOwnership_result es (flat_nodes entities) fuel
              Hacyclic (synthesized_targets_present Number_toString entities) Hfuel)
    as (final & Hfinal & Hlen & Hnodes).
  unfold loadFlatEntityList. fold es. rewrite Hfinal. cbn [mbind option_bind].
  eexists. split; [reflexivity|]. cbn [nodes edges].
  split; [reflexivity|]. split.
  { rewrite Hlen. unfold flat_nodes. apply length_map. }
  intros i ent Hent.
  assert (Hflat : flat_nodes entities !! i
                  = Some (set_dimension {| width := Num 220; height := Num 100 |} ent)).
  { unfold flat_nodes.
    change (map ?f entities) with (f <$> entities).
    rewrite list_lookup_fmap, Hent. reflexivity. }
  destruct (Hnodes i _ Hflat) as (n' & Hn' & Hroot & Hfirst & Hother).
  assert (Hpaths : root_paths es (flat_nodes entities) (id ent)
                   = root_paths es entities (id ent)).
  { unfold root_paths, flat_nodes. rewrite root_positions_map by reflexivity.
    reflexivity. }
  assert (Hamounts : path_amounts es (flat_nodes entities) (id ent)
                     = path_amounts es entities (id ent)).
  { unfold path_amounts. rewrite Hpaths. reflexivity. }
  assert (Hfind : find_node (id ent) (flat_nodes entities)
                  = find_node (id ent) entities).
  { unfold flat_nodes. apply find_node_map. reflexivity. }
  cbn [id set_dimension effectiveOwnership] in Hfirst, Hother.
  rewrite Hfind in Hfirst, Hother. rewrite Hamounts in Hfirst. rewrite Hpaths in Hother.
  exists n'. split; [exact Hn'|]. split; [exact Hroot|]. split.
  - exact Hfirst.
  - exact Hother.
Qed.

Lemma loadFlatEntityList_effective_ownership_witness :
  acyclic (synthesized_edges (fun _ => "50") joint_venture)
  /\ (length (synthesized_edges (fun _ => "50") joint_venture) < 3)%nat
  /\ exists s',
       loadFlatEntityList (fun _ => "50") 3 joint_venture (store_of [] []) = Some s'
       /\ length (nodes s') = length joint_venture.
Proof.
  pose proof (joint_venture_acyclic (fun _ => "50")) as Hacyc.
  assert (Hfuel : (length (synthesized_edges (fun _ => "50") joint_venture) < 3)%nat)
    by (simpl; lia).
  split; [exact Hacyc|]. split; [exact Hfuel|].
  destruct (proj1 (loadFlatEntityList_effective_ownership
                     (fun _ => "50") joint_venture (store_of [] []) 3 Hacyc Hfuel))
    as (s' & Hs' & _ & Hlen & _).
  exists s'. split; [exact Hs'|exact Hlen].
Defined.

(** The flat list of the specification's example: [R] at [100] and its
    child [X] at a stake of [50]. *)
Example flat_list_root_and_child (Number_toString : float -> string) :
  effective_of (loadFlatEntityList Number_toString 2
                  [flat_entity "R" None (Some (Num 100));
                   flat_entity "X" (Some "R") (Some (Num 50))]
                  (store_of [] []))
  = [("R", Some (Num 100)); ("X", Some (Num 50))].
Proof. vm_compute. reflexivity. Qed.

(** A path starts at the identifier it was enumerated from. *)
Lemma paths_from_head (es : list DiagramEdge) (d : nat) (s : string)
    (p : list DiagramEdge) :
  In p (paths_from es d s) -> exists e q, p = e :: q /\ source e = s.
Proof.
  intros Hp. apply paths_from_spec in Hp as [[t Hc] _].
  destruct Hc; eauto.
Qed.

Lemma root_positions_ids (es : list DiagramEdge) (base : nat) (ns : list DiagramNode) :
  NoDup (map id ns) -> NoDup (map snd (root_positions es base ns)).
Proof.
  revert base. induction ns as [|n ns IH]; intros base; simpl; [constructor|].
  intros [Hnin Hnd]%NoDup_cons. destruct (is_root es n); simpl; [|apply IH; exact Hnd].
  apply NoDup_cons. split; [|apply IH; exact Hnd].
  rewrite list_elem_of_In. intros (r & Hsnd & Hr)%in_map_iff.
  apply root_positions_in in Hr as (j & m & _ & Hm & _ & Hid).
  apply Hnin. rewrite list_elem_of_In. apply in_map_iff. exists m.
  split; [congruence|]. apply list_elem_of_In. eapply list_elem_of_lookup_2. exact Hm.
Qed.

(** When identifiers and edges are pairwise distinct, [root_paths] lists no
    path twice: [path_sum] then adds one term per path. *)
Lemma root_paths_NoDup (es : list DiagramEdge) (ns : list DiagramNode) (x : string) :
  NoDup es -> NoDup (map id ns) -> NoDup (root_paths es ns x).
Proof.
  intros Hes Hids. unfold root_paths.
  pose proof (root_positions_ids es 0 ns Hids) as Hroots.
  induction (root_positions es 0 ns) as [|r roots IH]; simpl; [constructor|].
  simpl in Hroots. apply NoDup_cons in Hroots as [Hr Hroots].
  apply NoDup_app. split; [|split; [|apply IH; exact Hroots]].
  - unfold paths_to. apply NoDup_ListNoDup, List.NoDup_filter, NoDup_ListNoDup.
    apply paths_from_NoDup. exact Hes.
  - intros p Hp Hp'. rewrite list_elem_of_In in Hp, Hp'.
    apply filter_In in Hp as [Hp _].
    apply in_flat_map in Hp' as (r' & Hr' & Hp').
    apply filter_In in Hp' as [Hp' _].
    apply paths_from_head in Hp as (e & q & -> & Hsrc).
    apply paths_from_head in Hp' as (e' & q' & Heq & Hsrc').
    injection Heq as <- _. apply Hr. rewrite list_elem_of_In.
    apply in_map_iff. exists r'. split; [congruence|exact Hr'].
Qed.

(** ** Cycles

    The recursion has no guard: on an entity that names itself as parent,
    under an identifier a root also leads to, it never returns.  In the model
    no fuel is enough. *)

Definition self_owned : list DiagramNode :=
  [flat_entity "R" None None;
   flat_entity "X" (Some "R") (Some (Num 50));
   flat_entity "X" (Some "X") (Some (Num 50))].

Lemma self_owned_recursion_never_returns (Number_toString : float -> string) (fuel : nat)
    (a : float) (ns : list DiagramNode) :
  In "X" (map id ns) ->
  propagateOwnership fuel "X" a ns (synthesized_edges Number_toString self_owned) = None.
Proof.
  revert a ns. induction fuel as [|fuel IH]; intros a ns Hin; [reflexivity|].
  destruct (find_node_present "X" ns Hin) as [i Hi].
  rewrite propagateOwnership_S.
  change (childrenEdges (synthesized_edges Number_toString self_owned) "X")
    with [parent_edge Number_toString "X" (flat_entity "X" (Some "X") (Some (Num 50)))].
  cbn [fold_left].
  erewrite propagate_step_found by exact Hi. apply IH.
  rewrite map_id_alter by reflexivity. exact Hin.
Qed.

Lemma self_owned_load_never_returns (Number_toString : float -> string) (fuel : nat)
    (s : Store) :
  loadFlatEntityList Number_toString fuel self_owned s = None.
Proof.
  unfold loadFlatEntityList, calculateEffectiveOwnership.
  change (root_positions (synthesized_edges Number_toString self_owned) 0
            (flat_nodes self_owned))
    with [(0%nat, "R")].
  destruct fuel as [|fuel]; [reflexivity|].
  cbn [fold_left fst snd mbind option_bind].
  rewrite propagateOwnership_S.
  change (childrenEdges (synthesized_edges Number_toString self_owned) "R")
    with [parent_edge Number_toString "R" (flat_entity "X" (Some "R") (Some (Num 50)))].
  cbn [fold_left].
  erewrite propagate_step_found by reflexivity.
  rewrite (self_owned_recursion_never_returns Number_toString fuel); [reflexivity|].
  right. left. reflexivity.
Qed.

(** ** Committing the sandbox *)

(** After [commitSandbox] from sandbox mode no node and no edge is a draft,
    the store is live and the snapshot is gone. *)
Lemma commitSandbox_clears_drafts (s : Store) :
  sandboxMode s = true ->
  Forall (fun n => isDraft n = Some false) (nodes (commitSandbox s))
  /\ Forall (fun e => edge_isDraft e = Some false) (edges (commitSandbox s))
  /\ sandboxMode (commitSandbox s) = false
  /\ originalState (commitSandbox s) = None.
Proof.
  intros Hmode. unfold commitSandbox. rewrite Hmode. cbn [negb nodes edges].
  split; [|split; [|split; reflexivity]].
  - apply Forall_forall. intros n Hn. rewrite list_elem_of_In in Hn.
    apply in_map_iff in Hn as (m & <- & _). reflexivity.
  - apply Forall_forall. intros e He. rewrite list_elem_of_In in He.
    apply in_map_iff in He as (m & <- & _). reflexivity.
Qed.

(** ** C2: the sandbox on object references

    The round trip is about identity as much as about value: the snapshot
    must not share objects with the graph being edited.  Here node objects
    live in a heap, [objects], a reference is a position in it, and the
    [nodes] signal and the snapshot hold references.  Objects are never
    freed.  Edge objects are written by no operation and stay values. *)

Record RefStore := {
  objects : list DiagramNode;
  node_refs : list nat;
  ref_edges : list DiagramEdge;
  ref_selectedNodeId : option string;
  ref_highlightedPath : gset string;
  ref_sandboxMode : bool;
  ref_originalState : option (list nat * list DiagramEdge)
}.

(** The node objects that [this.nodes()] refers to. *)
Definition ref_nodes (s : RefStore) : list DiagramNode :=
  omap (fun l => objects s !! l) (node_refs s).

(** Every reference of the [nodes] signal points at an object. *)
Definition ref_wf (s : RefStore) : Prop :=
  Forall (fun l => (l < length (objects s))%nat) (node_refs s).

(** [startSandbox()]: [JSON.parse] allocates the copies. *)
Definition ref_startSandbox (s : RefStore) : RefStore :=
  if ref_sandboxMode s then s
  else
    let copies := JSON_copy_nodes (ref_nodes s) in
    {| objects := objects s ++ copies;
       node_refs := node_refs s;
       ref_edges := ref_edges s;
       ref_selectedNodeId := ref_selectedNodeId s;
       ref_highlightedPath := ref_highlightedPath s;
       ref_sandboxMode := true;
       ref_originalState :=
         Some (seq (length (objects s)) (length copies),
               JSON_copy_edges (ref_edges s)) |}.

(** [discardSandbox()]: the [nodes] signal now holds the snapshot's array. *)
Definition ref_discardSandbox (s : RefStore) : RefStore :=
  if negb (ref_sandboxMode s) then s
  else
    match ref_originalState s with
    | None => s
    | Some (refs, es) =>
        {| objects := objects s;
           node_refs := refs;
           ref_edges := es;
           ref_selectedNodeId := ref_selectedNodeId s;
           ref_highlightedPath := ref_highlightedPath s;
           ref_sandboxMode := false;
           ref_originalState := None |}
    end.

(** [addNode(node)], [node] being the object at [l]: the object is written
    in place, and the new array ends with the same reference. *)
Definition ref_addNode (l : nat) (s : RefStore) : RefStore :=
  {| objects := alter (set_dimension {| width := Num 200; height := Num 90 |}) l (objects s);
     node_refs := node_refs s ++ [l];
     ref_edges := ref_edges s;
     ref_selectedNodeId := ref_selectedNodeId s;
     ref_highlightedPath := ref_highlightedPath s;
     ref_sandboxMode := ref_sandboxMode s;
     ref_originalState := ref_originalState s |}.

(** An object literal of the caller. *)
Definition ref_new (node : DiagramNode) (s : RefStore) : RefStore :=
  {| objects := objects s ++ [node];
     node_refs := node_refs s;
     ref_edges := ref_edges s;
     ref_selectedNodeId := ref_selectedNodeId s;
     ref_highlightedPath := ref_highlightedPath s;
     ref_sandboxMode := ref_sandboxMode s;
     ref_originalState := ref_originalState s |}.

(** One element of [nodes.map(n => n.id === id ? { ...n, ...partial } : n)]:
    a matching node is replaced by a new object. *)
Definition update_step (id0 : string) (partial : PartialNode)
    (acc : list DiagramNode * list nat) (l : nat) : list DiagramNode * list nat :=
  match fst acc !! l with
  | Some n =>
      if String.eqb (id n) id0
      then (fst acc ++ [spread n partial], snd acc ++ [length (fst acc)])
      else (fst acc, snd acc ++ [l])
  | None => (fst acc, snd acc ++ [l])
  end.

(** [updateNode(id, partial)]. *)
Definition ref_updateNode (id0 : string) (partial : PartialNode) (s : RefStore) : RefStore :=
  let r := fold_left (update_step id0 partial) (node_refs s) (objects s, []) in
  {| objects := fst r;
     node_refs := snd r;
     ref_edges := ref_edges s;
     ref_selectedNodeId := ref_selectedNodeId s;
     ref_highlightedPath := ref_highlightedPath s;
     ref_sandboxMode := ref_sandboxMode s;
     ref_originalState := ref_originalState s |}.

(** [removeNode(id)]. *)
Definition ref_removeNode (id0 : string) (s : RefStore) : RefStore :=
  {| objects := objects s;
     node_refs :=
       List.filter (fun l => match objects s !! l with
                             | Some n => negb (String.eqb (id n) id0)
                             | None => true
                             end) (node_refs s);
     ref_edges := List.filter (fun e => negb (String.eqb (source e) id0)
                                        && negb (String.eqb (target e) id0))
                              (ref_edges s);
     ref_selectedNodeId :=
       match ref_selectedNodeId s with
       | Some sel => if String.eqb sel id0 then None else Some sel
       | None => None
       end;
     ref_highlightedPath := ref_highlightedPath s;
     ref_sandboxMode := ref_sandboxMode s;
     ref_originalState := ref_originalState s |}.

(** The edits of the claim.  [addNode] is called either on an object the
    caller has just made or on one it has read from the [nodes] signal
    ([nodes()[k]]); the snapshot is private and no caller can name its
    objects. *)
Inductive RefEdit :=
| RefAddNew (node : DiagramNode)
| RefAddStored (k : nat)
| RefUpdateNode (id0 : string) (partial : PartialNode)
| RefRemoveNode (id0 : string).

Definition ref_apply_edit (s : RefStore) (e : RefEdit) : RefStore :=
  match e with
  | RefAddNew node => ref_addNode (length (objects s)) (ref_new node s)
  | RefAddStored k =>
      match node_refs s !! k with
      | Some l => ref_addNode l s
      | None => s
      end
  | RefUpdateNode id0 partial => ref_updateNode id0 partial s
  | RefRemoveNode id0 => ref_removeNode id0 s
  end.

Definition ref_apply_edits (edits : list RefEdit) (s : RefStore) : RefStore :=
  fold_left ref_apply_edit edits s.

(** A reference outside the block [base, base + k) of the heap. *)
Definition outside (base k l : nat) : Prop := (l < base \/ base + k <= l)%nat.

(** The state between [startSandbox] and [discardSandbox]: the snapshot is
    the block of [k] objects at [base], those objects still hold the values
    [frozen], and no reference of the [nodes] signal points into the block. *)
Record sandboxed (base k : nat) (frozen : list DiagramNode) (es0 : list DiagramEdge)
    (s : RefStore) : Prop := {
  sb_mode : ref_sandboxMode s = true;
  sb_snapshot : ref_originalState s = Some (seq base k, es0);
  sb_frozen : forall j, (j < k)%nat -> objects s !! (base + j)%nat = frozen !! j;
  sb_separate : Forall (outside base k) (node_refs s);
  sb_bound : (base + k <= length (objects s))%nat;
  sb_wf : ref_wf s
}.

Lemma omap_frozen (objs frozen : list DiagramNode) (base : nat) :
  (forall j, (j < length frozen)%nat -> objs !! (base + j)%nat = frozen !! j) ->
  omap (fun l => objs !! l) (seq base (length frozen)) = frozen.
Proof.
  revert base. induction frozen as [|x frozen IH]; intros base H; [reflexivity|].
  simpl. pose proof (H 0%nat ltac:(simpl; lia)) as H0.
  rewrite Nat.add_0_r in H0. rewrite H0. simpl. f_equal.
  apply IH. intros j Hj. specialize (H (S j) ltac:(simpl; lia)).
  rewrite Nat.add_succ_r in H. exact H.
Qed.

Lemma sandboxed_start (s : RefStore) :
  ref_wf s -> ref_sandboxMode s = false ->
  sandboxed (length (objects s)) (length (map JSON_node (ref_nodes s)))
            (map JSON_node (ref_nodes s)) (map JSON_edge (ref_edges s))
            (ref_startSandbox s).
Proof.
  intros Hwf Hlive. unfold ref_startSandbox. rewrite Hlive.
  rewrite JSON_copy_nodes_image, JSON_copy_edges_image.
  split; cbn [ref_sandboxMode ref_originalState objects node_refs].
  - reflexivity.
  - reflexivity.
  - intros j _. rewrite lookup_app_r by lia. f_equal. lia.
  - eapply Forall_impl; [exact Hwf|]. intros l Hl. left. exact Hl.
  - rewrite length_app. lia.
  - unfold ref_wf. cbn [objects node_refs]. rewrite length_app.
    eapply Forall_impl; [exact Hwf|]. intros l Hl. simpl in Hl. lia.
Qed.

Lemma sandboxed_addNode (base k : nat) (frozen : list DiagramNode)
    (es0 : list DiagramEdge) (s : RefStore) (l : nat) :
  sandboxed base k frozen es0 s ->
  outside base k l -> (l < length (objects s))%nat ->
  sandboxed base k frozen es0 (ref_addNode l s).
Proof.
  intros [Hmode Hsnap Hfrozen Hsep Hbound Hwf] Hout Hl.
  split; cbn [ref_addNode ref_sandboxMode ref_originalState objects node_refs].
  - exact Hmode.
  - exact Hsnap.
  - intros j Hj. rewrite list_lookup_alter_ne; [apply Hfrozen; exact Hj|].
    destruct Hout; lia.
  - apply Forall_app. split; [exact Hsep|]. constructor; [exact Hout|constructor].
  - rewrite length_alter. exact Hbound.
  - unfold ref_wf. cbn [ref_addNode objects node_refs]. rewrite length_alter.
    apply Forall_app. split; [exact Hwf|]. constructor; [exact Hl|constructor].
Qed.

Lemma sandboxed_new (base k : nat) (frozen : list DiagramNode)
    (es0 : list DiagramEdge) (s : RefStore) (node : DiagramNode) :
  sandboxed base k frozen es0 s -> sandboxed base k frozen es0 (ref_new node s).
Proof.
  intros [Hmode Hsnap Hfrozen Hsep Hbound Hwf].
  split; cbn [ref_new ref_sandboxMode ref_originalState objects node_refs].
  - exact Hmode.
  - exact Hsnap.
  - intros j Hj. rewrite lookup_app_l by lia. apply Hfrozen. exact Hj.
  - exact Hsep.
  - rewrite length_app. lia.
  - unfold ref_wf. cbn [ref_new objects node_refs]. rewrite length_app.
    eapply Forall_impl; [exact Hwf|]. intros l Hl. simpl in Hl. lia.
Qed.

(** [updateNode] only appends objects, and its new array holds references
    of the old array or references to the new objects. *)
Lemma update_fold_inv (id0 : string) (partial : PartialNode) (base k : nat)
    (objs0 : list DiagramNode) (ls : list nat) (acc : list DiagramNode * list nat) :
  (base + k <= length objs0)%nat ->
  (exists ext, fst acc = objs0 ++ ext) ->
  Forall (outside base k) (snd acc) ->
  Forall (fun l => (l < length (fst acc))%nat) (snd acc) ->
  Forall (outside base k) ls ->
  Forall (fun l => (l < length objs0)%nat) ls ->
  (exists ext, fst (fold_left (update_step id0 partial) ls acc) = objs0 ++ ext)
  /\ Forall (outside base k) (snd (fold_left (update_step id0 partial) ls acc))
  /\ Forall (fun l => (l < length (fst (fold_left (update_step id0 partial) ls acc)))%nat)
            (snd (fold_left (update_step id0 partial) ls acc)).
Proof.
  intros Hbound. revert acc.
  induction ls as [|l ls IH]; intros acc Hext Hsep Hlt Hls Hwf; [auto|].
  apply Forall_cons in Hls as [Hl Hls]. apply Forall_cons in Hwf as [Hl0 Hwf].
  destruct Hext as [ext Hext].
  assert (Hlen : (length objs0 <= length (fst acc))%nat)
    by (rewrite Hext, length_app; lia).
  cbn [fold_left]. apply IH; try assumption; unfold update_step;
    destruct (fst acc !! l) as [n|]; try destruct (String.eqb (id n) id0);
    cbn [fst snd].
  - exists (ext ++ [spread n partial]). rewrite Hext, app_assoc. reflexivity.
  - exists ext. exact Hext.
  - exists ext. exact Hext.
  - apply Forall_app. split; [exact Hsep|].
    constructor; [right; lia|constructor].
  - apply Forall_app. split; [exact Hsep|]. constructor; [exact Hl|constructor].
  - apply Forall_app. split; [exact Hsep|]. constructor; [exact Hl|constructor].
  - rewrite length_app. apply Forall_app. split.
    + eapply Forall_impl; [exact Hlt|]. intros l' Hl'. simpl in *. lia.
    + constructor; [simpl; lia|constructor].
  - apply Forall_app. split; [exact Hlt|]. constructor; [lia|constructor].
  - apply Forall_app. split; [exact Hlt|]. constructor; [lia|constructor].
Qed.

Lemma sandboxed_updateNode (base k : nat) (frozen : list DiagramNode)
    (es0 : list DiagramEdge) (s : RefStore) (id0 : string) (partial : PartialNode) :
  sandboxed base k frozen es0 s -> sandboxed base k frozen es0 (ref_updateNode id0 partial s).
Proof.
  intros [Hmode Hsnap Hfrozen Hsep Hbound Hwf].
  destruct (update_fold_inv id0 partial base k (objects s) (node_refs s)
              (objects s, []) Hbound) as ([ext Hext] & Hsep' & Hwf').
  { exists []. cbn [fst]. rewrite app_nil_r. reflexivity. }
  { constructor. }
  { constructor. }
  { exact Hsep. }
  { exact Hwf. }
  split; cbn [ref_updateNode ref_sandboxMode ref_originalState objects node_refs].
  - exact Hmode.
  - exact Hsnap.
  - intros j Hj. rewrite Hext, lookup_app_l by lia. apply Hfrozen. exact Hj.
  - exact Hsep'.
  - rewrite Hext, length_app. lia.
  - exact Hwf'.
Qed.

Lemma sandboxed_removeNode (base k : nat) (frozen : list DiagramNode)
    (es0 : list DiagramEdge) (s : RefStore) (id0 : string) :
  sandboxed base k frozen es0 s -> sandboxed base k frozen es0 (ref_removeNode id0 s).
Proof.
  intros [Hmode Hsnap Hfrozen Hsep Hbound Hwf].
  assert (Hsub : forall P : nat -> Prop, Forall P (node_refs s) ->
                   Forall P (node_refs (ref_removeNode id0 s))).
  { intros P HP. cbn [ref_removeNode node_refs]. apply Forall_forall.
    intros l Hl. rewrite list_elem_of_In in Hl. apply filter_In in Hl as [Hl _].
    rewrite Forall_forall in HP. apply HP, list_elem_of_In. exact Hl. }
  split.
  - exact Hmode.
  - exact Hsnap.
  - exact Hfrozen.
  - apply Hsub. exact Hsep.
  - exact Hbound.
  - apply (Hsub _ Hwf).
Qed.

Lemma sandboxed_edit (base k : nat) (frozen : list DiagramNode)
    (es0 : list DiagramEdge) (s : RefStore) (e : RefEdit) :
  sandboxed base k frozen es0 s -> sandboxed base k frozen es0 (ref_apply_edit s e).
Proof.
  intros Hs. destruct e as [node|i|id0 partial|id0]; cbn [ref_apply_edit].
  - apply sandboxed_addNode.
    + apply sandboxed_new. exact Hs.
    + right. apply Hs.
    + cbn [ref_new objects]. rewrite length_app. simpl. lia.
  - destruct (node_refs s !! i) as [l|] eqn:Hl; [|exact Hs].
    apply list_elem_of_lookup_2 in Hl.
    apply sandboxed_addNode; [exact Hs| |].
    + pose proof (sb_separate _ _ _ _ _ Hs) as Hsep.
      rewrite Forall_forall in Hsep. apply Hsep. exact Hl.
    + pose proof (sb_wf _ _ _ _ _ Hs) as Hwf. unfold ref_wf in Hwf.
      rewrite Forall_forall in Hwf. apply Hwf. exact Hl.
  - apply sandboxed_updateNode. exact Hs.
  - apply sandboxed_removeNode. exact Hs.
Qed.

Lemma sandboxed_edits (base k : nat) (frozen : list DiagramNode)
    (es0 : list DiagramEdge) (edits : list RefEdit) (s : RefStore) :
  sandboxed base k frozen es0 s -> sandboxed base k frozen es0 (ref_apply_edits edits s).
Proof.
  unfold ref_apply_edits. revert s.
  induction edits as [|e edits IH]; intros s Hs; [exact Hs|].
  simpl. apply IH, sandboxed_edit, Hs.
Qed.

(** Two node objects [A], [B] and an edge between them, nothing selected,
    live. *)
Definition ref_store_AB : RefStore :=
  {| objects := [plain_node "A" "A"; plain_node "B" "B"];
     node_refs := [0%nat; 1%nat];
     ref_edges := [plain_edge "e1" "A" "B"];
     ref_selectedNodeId := None;
     ref_highlightedPath := ∅;
     ref_sandboxMode := false;
     ref_originalState := None |}.

(** [addNode(nodes()[0])] writes the stored object: both entries of the new
    array show the assigned dimension. *)
Example addNode_stored_writes_in_place :
  ref_nodes (ref_apply_edit ref_store_AB (RefAddStored 0))
  = [set_dimension {| width := Num 200; height := Num 90 |} (plain_node "A" "A");
     plain_node "B" "B";
     set_dimension {| width := Num 200; height := Num 90 |} (plain_node "A" "A")].
Proof. reflexivity. Qed.

(** A live heap holding the given graph, one object per node, nothing
    selected. *)
Definition ref_store_of (ns : list DiagramNode) (es : list DiagramEdge) : RefStore :=
  {| objects := ns;
     node_refs := seq 0 (length ns);
     ref_edges := es;
     ref_selectedNodeId := None;
     ref_highlightedPath := ∅;
     ref_sandboxMode := false;
     ref_originalState := None |}.

(** C2, counterexample.  [loadFlatEntityList] on [overflowing_stake] leaves
    a live store in which [X] has the effective ownership [Infinity].
    [JSON.stringify] writes [null] for it, so the snapshot that
    [startSandbox] takes holds [null], and after [discardSandbox], with no
    edit in between, the effective ownership of [X] is [null]: the nodes are
    not equal by value to those of before.  The same on the heap of node
    objects. *)
Lemma discardSandbox_returns_null_for_infinity :
  exists s : Store,
    loadFlatEntityList (fun _ => "1e+308") 2 overflowing_stake (store_of [] []) = Some s
    /\ sandboxMode s = false
    /\ map (fun n => (id n, effectiveOwnership n)) (nodes s)
       = [("R", Some (Num 100)); ("X", Some (Num infinity))]
    /\ map (fun n => (id n, effectiveOwnership n))
           (nodes (discardSandbox (apply_edits [] (startSandbox s))))
       = [("R", Some (Num 100)); ("X", Some Null)]
    /\ nodes (discardSandbox (apply_edits [] (startSandbox s))) <> nodes s
    /\ ref_wf (ref_store_of (nodes s) (edges s))
    /\ ref_sandboxMode (ref_store_of (nodes s) (edges s)) = false
    /\ ref_nodes (ref_store_of (nodes s) (edges s)) = nodes s
    /\ map (fun n => (id n, effectiveOwnership n))
           (ref_nodes (ref_discardSandbox
                         (ref_apply_edits [] (ref_startSandbox
                                                (ref_store_of (nodes s) (edges s))))))
       = [("R", Some (Num 100)); ("X", Some Null)]
    /\ ref_nodes (ref_discardSandbox
                    (ref_apply_edits [] (ref_startSandbox
                                           (ref_store_of (nodes s) (edges s)))))
       <> ref_nodes (ref_store_of (nodes s) (edges s)).
Proof.
  eexists. split; [vm_compute; reflexivity|].
  cbn [nodes edges sandboxMode].
  split; [reflexivity|]. split; [vm_compute; reflexivity|].
  split; [vm_compute; reflexivity|].
  split; [intros H; vm_compute in H; discriminate|].
  split; [unfold ref_wf; simpl; repeat constructor|].
  split; [reflexivity|]. split; [vm_compute; reflexivity|].
  split; [vm_compute; reflexivity|].
  intros H; vm_compute in H; discriminate.
Qed.

(** C2 (amended): from a live store, [startSandbox], then any finite
    sequence of [addNode] / [updateNode] / [removeNode] (on new objects or on
    stored ones), then [discardSandbox] leaves the JSON copies of the nodes
    and edges of before [startSandbox]: equal to them by value in every
    property but the numbers that JSON cannot carry, [NaN] and the
    infinities, which come back as [null], and the negative zero, which
    comes back as zero.  So when every number of the graph is finite or
    [null] and none is the negative zero, nodes and edges are equal by value
    to those of before.  In every case the mode flag is at live, no snapshot
    remains, and the node objects are not those of before but objects
    allocated since. *)
Theorem sandbox_round_trip (s : RefStore) (edits : list RefEdit)
    (Hwf : ref_wf s) (Hlive : ref_sandboxMode s = false) :
  ref_nodes (ref_discardSandbox (ref_apply_edits edits (ref_startSandbox s)))
  = map JSON_node (ref_nodes s)
  /\ ref_edges (ref_discardSandbox (ref_apply_edits edits (ref_startSandbox s)))
     = map JSON_edge (ref_edges s)
  /\ (forallb stable_node (ref_nodes s) = true ->
      ref_nodes (ref_discardSandbox (ref_apply_edits edits (ref_startSandbox s)))
      = ref_nodes s)
  /\ (forallb stable_edge (ref_edges s) = true ->
      ref_edges (ref_discardSandbox (ref_apply_edits edits (ref_startSandbox s)))
      = ref_edges s)
  /\ ref_sandboxMode (ref_discardSandbox (ref_apply_edits edits (ref_startSandbox s)))
     = false
  /\ ref_originalState (ref_discardSandbox (ref_apply_edits edits (ref_startSandbox s)))
     = None
  /\ Forall (fun l => (length (objects s) <= l)%nat)
            (node_refs (ref_discardSandbox (ref_apply_edits edits (ref_startSandbox s))))
  /\ ref_wf (ref_discardSandbox (ref_apply_edits edits (ref_startSandbox s))).
Proof.
  pose proof (sandboxed_edits _ _ _ _ edits _ (sandboxed_start s Hwf Hlive))
    as [Hmode Hsnap Hfrozen Hsep Hbound _].
  set (edited := ref_apply_edits edits (ref_startSandbox s)) in *.
  assert (Hdiscard : ref_discardSandbox edited
                     = {| objects := objects edited;
                          node_refs := seq (length (objects s))
                                           (length (map JSON_node (ref_nodes s)));
                          ref_edges := map JSON_edge (ref_edges s);
                          ref_selectedNodeId := ref_selectedNodeId edited;
                          ref_highlightedPath := ref_highlightedPath edited;
                          ref_sandboxMode := false;
                          ref_originalState := None |})
    by (unfold ref_discardSandbox; rewrite Hmode, Hsnap; reflexivity).
  assert (Hnodes : ref_nodes (ref_discardSandbox edited) = map JSON_node (ref_nodes s)).
  { rewrite Hdiscard. unfold ref_nodes at 1. cbn [objects node_refs].
    apply omap_frozen. exact Hfrozen. }
  split; [exact Hnodes|]. split; [rewrite Hdiscard; reflexivity|]. split.
  { intros Hstable. rewrite Hnodes.
    apply (map_stable JSON_node stable_node); [exact JSON_node_stable|exact Hstable]. }
  split.
  { intros Hstable. rewrite Hdiscard. cbn [ref_edges].
    apply (map_stable JSON_edge stable_edge); [exact JSON_edge_stable|exact Hstable]. }
  rewrite Hdiscard. unfold ref_wf.
  cbn [objects node_refs ref_sandboxMode ref_originalState].
  split; [reflexivity|]. split; [reflexivity|].
  split; apply Forall_forall; intros l Hl; rewrite list_elem_of_In in Hl;
    apply in_seq in Hl; lia.
Qed.

Lemma sandbox_round_trip_witness :
  ref_wf ref_store_AB
  /\ ref_sandboxMode ref_store_AB = false
  /\ ref_nodes (ref_discardSandbox
                  (ref_apply_edits [RefAddStored 0;
                                    RefAddNew (plain_node "D" "draft");
                                    RefUpdateNode "A" no_fields;
                                    RefRemoveNode "B"]
                                   (ref_startSandbox ref_store_AB)))
     = ref_nodes ref_store_AB.
Proof.
  assert (Hwf : ref_wf ref_store_AB).
  { unfold ref_wf. simpl. repeat constructor. }
  split; [exact Hwf|]. split; [reflexivity|].
  apply (sandbox_round_trip ref_store_AB
           [RefAddStored 0; RefAddNew (plain_node "D" "draft");
            RefUpdateNode "A" no_fields; RefRemoveNode "B"] Hwf eq_refl).
  reflexivity.
Defined.

(** *** The two embeddings agree

    On references that point at objects, the operations on references do to
    the node values what the operations on values do; [addNode] on a stored
    object is the one case the value embedding leaves out
    ([addNode_stored_writes_in_place]). *)

Lemma omap_cons_Some {A B} (f : A -> option B) (x : A) (y : B) (l : list A) :
  f x = Some y -> omap f (x :: l) = y :: omap f l.
Proof. intros H. simpl. rewrite H. reflexivity. Qed.

Lemma omap_lookup_ext (objs objs' : list DiagramNode) (refs : list nat) :
  Forall (fun l => objs' !! l = objs !! l) refs ->
  omap (fun l => objs' !! l) refs = omap (fun l => objs !! l) refs.
Proof.
  induction 1 as [|l refs Hl _ IH]; [reflexivity|].
  simpl. rewrite Hl. destruct (objs !! l); [f_equal|]; exact IH.
Qed.

Lemma ref_addNew_nodes (s : RefStore) (node : DiagramNode) :
  ref_wf s ->
  ref_nodes (ref_apply_edit s (RefAddNew node))
  = nodes (addNode node (store_of (ref_nodes s) (ref_edges s))).
Proof.
  intros Hwf. unfold ref_nodes. cbn [ref_apply_edit ref_addNode ref_new objects
    node_refs addNode store_of nodes].
  rewrite omap_app. f_equal.
  - apply omap_lookup_ext. eapply Forall_impl; [exact Hwf|]. intros l Hl. simpl in Hl.
    rewrite list_lookup_alter_ne by lia. apply lookup_app_l. exact Hl.
  - rewrite (omap_cons_Some _ _ (set_dimension {| width := Num 200; height := Num 90 |} node) []);
      [reflexivity|].
    rewrite list_lookup_alter_eq, list_lookup_middle by reflexivity. reflexivity.
Qed.

Lemma ref_removeNode_nodes (s : RefStore) (id0 : string) :
  ref_wf s ->
  ref_nodes (ref_removeNode id0 s)
  = nodes (removeNode id0 (store_of (ref_nodes s) (ref_edges s))).
Proof.
  intros Hwf. unfold ref_nodes. cbn [ref_removeNode objects node_refs removeNode
    store_of nodes].
  induction Hwf as [|l refs Hl _ IH]; [reflexivity|].
  apply lookup_lt_is_Some_2 in Hl as [n Hn].
  rewrite (omap_cons_Some _ l n refs Hn).
  cbn [List.filter]. rewrite Hn.
  destruct (String.eqb (id n) id0); cbn [negb].
  - exact IH.
  - rewrite (omap_cons_Some _ l n _ Hn), IH. reflexivity.
Qed.

Lemma update_fold_nodes (id0 : string) (partial : PartialNode)
    (objs0 : list DiagramNode) (ls : list nat) (acc : list DiagramNode * list nat) :
  Forall (fun l => (l < length objs0)%nat) ls ->
  (exists ext, fst acc = objs0 ++ ext) ->
  Forall (fun l => (l < length (fst acc))%nat) (snd acc) ->
  omap (fun l => fst (fold_left (update_step id0 partial) ls acc) !! l)
       (snd (fold_left (update_step id0 partial) ls acc))
  = omap (fun l => fst acc !! l) (snd acc)
    ++ map (fun n => if String.eqb (id n) id0 then spread n partial else n)
           (omap (fun l => objs0 !! l) ls).
Proof.
  intros Hls. revert acc.
  induction Hls as [|l ls Hl _ IH]; intros acc [ext Hext] Hlt.
  - simpl. rewrite app_nil_r. reflexivity.
  - destruct (lookup_lt_is_Some_2 _ _ Hl) as [n Hn].
    assert (Hacc : fst acc !! l = Some n)
      by (rewrite Hext, lookup_app_l by exact Hl; exact Hn).
    cbn [fold_left]. rewrite (omap_cons_Some _ l n ls Hn). cbn [map].
    assert (Hstep : update_step id0 partial acc l
                    = if String.eqb (id n) id0
                      then (fst acc ++ [spread n partial], snd acc ++ [length (fst acc)])
                      else (fst acc, snd acc ++ [l]))
      by (unfold update_step; rewrite Hacc; reflexivity).
    rewrite Hstep. destruct (String.eqb (id n) id0).
    + rewrite IH; cbn [fst snd].
      * rewrite omap_app.
        rewrite (omap_cons_Some _ (length (fst acc)) (spread n partial) [])
          by (apply list_lookup_middle; reflexivity).
        rewrite <- app_assoc. f_equal.
        apply omap_lookup_ext. eapply Forall_impl; [exact Hlt|].
        intros l' Hl'. apply lookup_app_l. exact Hl'.
      * exists (ext ++ [spread n partial]). rewrite Hext, app_assoc. reflexivity.
      * rewrite length_app. apply Forall_app. split.
        -- eapply Forall_impl; [exact Hlt|]. intros l' Hl'. simpl in *. lia.
        -- constructor; [simpl; lia|constructor].
    + rewrite IH; cbn [fst snd].
      * rewrite omap_app, (omap_cons_Some _ l n [] Hacc), <- app_assoc. reflexivity.
      * exists ext. exact Hext.
      * apply Forall_app. split; [exact Hlt|].
        constructor; [|constructor]. rewrite Hext, length_app. lia.
Qed.

Lemma ref_updateNode_nodes (s : RefStore) (id0 : string) (partial : PartialNode) :
  ref_wf s ->
  ref_nodes (ref_updateNode id0 partial s)
  = nodes (updateNode id0 partial (store_of (ref_nodes s) (ref_edges s))).
Proof.
  intros Hwf. unfold ref_nodes. cbn [ref_updateNode objects node_refs updateNode
    store_of nodes].
  rewrite (update_fold_nodes id0 partial (objects s)); [reflexivity|exact Hwf| |].
  - exists []. cbn [fst]. rewrite app_nil_r. reflexivity.
  - constructor.
Qed.

(** Every operation on references keeps the references of the [nodes]
    signal pointing at objects. *)
Lemma ref_wf_edit (s : RefStore) (e : RefEdit) :
  ref_wf s -> ref_wf (ref_apply_edit s e).
Proof.
  intros Hwf. unfold ref_wf in *. destruct e as [node|i|id0 partial|id0];
    cbn [ref_apply_edit].
  - cbn [ref_addNode ref_new objects node_refs].
    rewrite length_alter, length_app. apply Forall_app. split.
    + eapply Forall_impl; [exact Hwf|]. intros l Hl. simpl in *. lia.
    + constructor; [simpl; lia|constructor].
  - destruct (node_refs s !! i) as [l|] eqn:Hl; [|exact Hwf].
    cbn [ref_addNode objects node_refs]. rewrite length_alter.
    apply Forall_app. split; [exact Hwf|]. constructor; [|constructor].
    rewrite Forall_forall in Hwf. apply Hwf.
    eapply list_elem_of_lookup_2. exact Hl.
  - cbn [ref_updateNode objects node_refs].
    apply (update_fold_inv id0 partial 0 0 (objects s) (node_refs s) (objects s, [])).
    + lia.
    + exists []. cbn [fst]. rewrite app_nil_r. reflexivity.
    + constructor.
    + constructor.
    + apply Forall_forall. intros l _. right. lia.
    + exact Hwf.
  - cbn [ref_removeNode objects node_refs]. apply Forall_forall.
    intros l Hl. rewrite list_elem_of_In in Hl. apply filter_In in Hl as [Hl _].
    rewrite Forall_forall in Hwf. apply Hwf, list_elem_of_In. exact Hl.
Qed.

(** ** The built-in sample data *)

(** One entity literal of [loadSampleData]. *)
Definition sample_entity (i : string) (parent : option string) (l entity_type
    residency currency : string) (pillar : PillarTwoStatus) (rate : float) (st : Status)
    (stake : float) (reg : string) : DiagramNode :=
  {| id := i; label := l; color := None; entityType := Some entity_type;
     jurisdiction := None; taxId := None; officers := None;
     filingDueDate := None; isDraft := None; taxResidency := Some residency;
     localCurrency := Some currency; citRate := Some (Num rate);
     effectiveOwnership := None; status := Some st; region := Some reg;
     pillarTwoStatus := Some pillar; dimension := None; parentId := parent;
     ownershipPercentage := Some (Num stake) |}.

(** [sampleNodes]. *)
Definition sampleNodes : list DiagramNode :=
  [sample_entity "G1" None "Enterprise Global Holdings Inc." "Holding"
     "USA" "USD" InScope 21 Active 100 "Americas";
   sample_entity "G2" (Some "G1") "Enterprise EMEA Hub S.a.r.l." "Holding"
     "Luxembourg" "EUR" InScope 24.9 Active 100 "EMEA";
   sample_entity "G3" (Some "G1") "Enterprise APAC Pte Ltd." "Holding"
     "Singapore" "SGD" SafeHarbor 17 Active 100 "APAC";
   sample_entity "G4" (Some "G2") "Enterprise Tech Ireland" "Subsidiary"
     "Ireland" "EUR" InScope 12.5 Active 100 "EMEA";
   sample_entity "G5" (Some "G2") "Enterprise DE Ops GmbH" "Subsidiary"
     "Germany" "EUR" InScope 30 Active 90 "EMEA";
   sample_entity "G6" (Some "G2") "Enterprise FR Trust" "Trust"
     "France" "EUR" Excluded 25 Active 100 "EMEA";
   sample_entity "G7" (Some "G3") "Enterprise AU Pty Ltd" "Subsidiary"
     "Australia" "AUD" SafeHarbor 30 Active 80 "APAC";
   sample_entity "G8" (Some "G3") "Enterprise CN Manufacturing" "Subsidiary"
     "China" "CNY" InScope 25 Active 100 "APAC";
   sample_entity "G9" (Some "G4") "Enterprise UK Innovation" "Limited"
     "United Kingdom" "GBP" Pending 25 Acquisition 50 "EMEA";
   sample_entity "G10" (Some "G9") "Enterprise IP Labs" "Shell"
     "Cayman Islands" "USD" NotApplicable 0 Liquidation 100 "EMEA";
   sample_entity "G11" (Some "G5") "Berlin Logistics J.V." "Subsidiary"
     "Germany" "EUR" InScope 30 Active 49 "EMEA";
   sample_entity "G12" (Some "G8") "H.K. Trading Port" "Branch"
     "Hong Kong" "HKD" Excluded 16.5 Active 100 "APAC";
   sample_entity "G13" (Some "G10") "Legacy Asset Pool" "Trust"
     "Bermuda" "USD" Excluded 0 Liquidation 100 "EMEA";
   sample_entity "G14" (Some "G7") "Sydney Sales Branch" "Branch"
     "Australia" "AUD" SafeHarbor 30 Active 100 "APAC";
   sample_entity "G15" (Some "G1") "Enterprise LatAm Assets" "Holding"
     "Brazil" "BRL" Pending 34 Active 100 "Americas"].

(** [loadSampleData()]. *)
Definition loadSampleData (Number_toString : float -> string) (fuel : nat) (s : Store)
    : option Store :=
  loadFlatEntityList Number_toString fuel sampleNodes s.

(** The sample hierarchy is a tree under [G1]; each entity ends with [100]
    scaled by each stake on its way down, in percent. *)
Example sample_effective_ownership (Number_toString : float -> string) (s : Store) :
  effective_of (loadSampleData Number_toString 15 s)
  = [("G1", Some (Num 100)); ("G2", Some (Num 100)); ("G3", Some (Num 100));
     ("G4", Some (Num 100)); ("G5", Some (Num 90)); ("G6", Some (Num 100));
     ("G7", Some (Num 80)); ("G8", Some (Num 100)); ("G9", Some (Num 50));
     ("G10", Some (Num 50)); ("G11", Some (Num 44.1)); ("G12", Some (Num 100));
     ("G13", Some (Num 50)); ("G14", Some (Num 80)); ("G15", Some (Num 100))].
Proof. vm_compute. reflexivity. Qed.
